(** * Records screen: response normalisation, group-name join, search filter,
      stock / cart reconciliation and cart mutations.

    Shallow embedding of
      - [src/app/ecommerce/services/GroupsService.ts]  (GroupsService.getGroups)
      - the records component  (RecordsComponent: constructor subscriptions,
        getRecords, filterRecords, getGroups, save, deleteRecord,
        controlError, addToCart, removeFromCart).

    Conventions of the embedding.
      - JSON payloads whose shape the code sniffs ([any]) are values of
        [JS.Value]; an object lists its own properties in enumeration order.
      - JavaScript numbers are integers [Z] (identifiers, years, stock and
        cart quantities are integral in this program).
      - Strings are byte strings; [toLowerCase] and [trim] act on ASCII.
      - Record objects live in a store and are named by locations, so that
        two arrays (or an array and a pending callback) can share one object.
        An array carries an identity tag: the code never updates [records] or
        [filteredRecords] in place, it only replaces them.
      - A thrown exception is the [Throw] completion. *)

From Stdlib Require Import ZArith Lia Ascii String DecimalString.
From stdpp Require Import base tactics option list strings.

Set Warnings "-register-all".
Local Open Scope Z_scope.
Local Open Scope string_scope.

(* ===================================================================== *)
(** ** JavaScript values *)
(* ===================================================================== *)

Module JS.

Inductive Value : Type :=
| Undefined
| Null
| Bool (b : bool)
| Number (n : Z)
| Str (s : string)
| Array (elems : list Value)
| Object (props : list (string * Value)).

(** [a ? .. : ..], [!a], [a && b], [a || b] coerce [a] with ToBoolean. *)
Class Truthy (A : Type) := truthy : A → bool.

#[export] Instance truthy_bool : Truthy bool := fun b => b.
#[export] Instance truthy_Z : Truthy Z := fun n => negb (n =? 0)%Z.
#[export] Instance truthy_string : Truthy string :=
  fun s => match s with EmptyString => false | String _ _ => true end.
#[export] Instance truthy_Value : Truthy Value := fun v =>
  match v with
  | Undefined | Null => false
  | Bool b => truthy b
  | Number n => truthy n
  | Str s => truthy s
  | Array _ | Object _ => true
  end.

(** [o || d] where [o] is a property that may be missing or null. *)
Definition or_else {A} `{Truthy A} (o : option A) (d : A) : A :=
  match o with
  | Some a => if truthy a then a else d
  | None => d
  end.

(** [o || null]. *)
Definition or_null {A} `{Truthy A} (o : option A) : option A :=
  match o with
  | Some a => if truthy a then Some a else None
  | None => None
  end.

(** [a || b] on untyped values. *)
Definition or (a b : Value) : Value := if truthy a then a else b.

Definition typeof (v : Value) : string :=
  match v with
  | Undefined => "undefined"
  | Null | Array _ | Object _ => "object"
  | Bool _ => "boolean"
  | Number _ => "number"
  | Str _ => "string"
  end.

Definition isArray (v : Value) : bool :=
  match v with Array _ => true | _ => false end.

(** The elements of a value already tested with [isArray]. *)
Definition elements (v : Value) : list Value :=
  match v with Array l => l | _ => [] end.

Fixpoint own (k : string) (props : list (string * Value)) : option Value :=
  match props with
  | [] => None
  | (k', v) :: rest => if String.eqb k k' then Some v else own k rest
  end.

(** [Object.values(o)] of a plain object. *)
Definition Object_values (props : list (string * Value)) : list Value :=
  map snd props.

(** Completion of an expression or statement list. *)
Inductive Completion (A : Type) : Type :=
| Normal (a : A)
| Throw (e : Value).
Arguments Normal {A} a.
Arguments Throw {A} e.

Definition TypeError : Value := Object [("name", Str "TypeError")].

Definition bind {A B} (c : Completion A) (k : A → Completion B) : Completion B :=
  match c with
  | Normal a => k a
  | Throw e => Throw e
  end.

Declare Scope js_scope.
Delimit Scope js_scope with js.
Notation "'let!' x ':=' c 'in' k" := (bind c (fun x => k))
  (at level 10, x name, c at level 100, k at level 200) : js_scope.

(** [v.k] for the property names this program reads from sniffed payloads
    ([$values], [data], [error], [message]): none of them is a built-in
    property of arrays, strings, numbers or booleans. *)
Definition member (v : Value) (k : string) : Completion Value :=
  match v with
  | Undefined | Null => Throw TypeError
  | Object props => Normal (default Undefined (own k props))
  | _ => Normal Undefined
  end.

(** [v.hasOwnProperty(k)].  A parsed JSON object that has an own property
    named [hasOwnProperty] shadows the inherited method with a value that is
    not callable. *)
Definition hasOwnProperty (v : Value) (k : string) : Completion bool :=
  match v with
  | Undefined | Null => Throw TypeError
  | Object props =>
      match own "hasOwnProperty" props with
      | Some _ => Throw TypeError
      | None => Normal (bool_decide (is_Some (own k props)))
      end
  | _ => Normal false
  end.

(** [a && b] where evaluating [b] may throw. *)
Definition and_then (a : bool) (b : Completion bool) : Completion bool :=
  if a then b else Normal false.

End JS.

Import JS.
Local Open Scope js_scope.

(* ===================================================================== *)
(** ** Observables that deliver one notification (HTTP calls) *)
(* ===================================================================== *)

Module Rx.

Inductive Notification (A : Type) : Type :=
| Next (a : A)
| Error (e : Value).
Arguments Next {A} a.
Arguments Error {A} e.

(** [map(project)]: an exception thrown by [project] becomes an error
    notification. *)
Definition map {A B} (project : A → Completion B) (src : Notification A)
  : Notification B :=
  match src with
  | Next a => match project a with Normal b => Next b | Throw e => Error e end
  | Error e => Error e
  end.

Definition catchError {A} (selector : Value → Notification A)
  (src : Notification A) : Notification A :=
  match src with
  | Next a => Next a
  | Error e => selector e
  end.

(** [of(a)]. *)
Definition of_ {A} (a : A) : Notification A := Next a.

(** [src.subscribe({ next, error })]. *)
Definition subscribe {A R} (src : Notification A)
  (next : A → R) (error : Value → R) : R :=
  match src with
  | Next a => next a
  | Error e => error e
  end.

End Rx.

(* ===================================================================== *)
(** ** GroupsService.getGroups *)
(* ===================================================================== *)

Module GroupsService.

(** The [map] callback of [getGroups]. *)
Definition getGroups_project (response : Value) : Completion Value :=
  if isArray response then Normal response
  else if truthy response && String.eqb (typeof response) "object" then
    let! has_values := hasOwnProperty response "$values" in
    if has_values then
      let! v := member response "$values" in Normal (JS.or v (Array []))
    else
      let! has_data := hasOwnProperty response "data" in
      if has_data then
        let! v := member response "data" in Normal (JS.or v (Array []))
      else
        match response with
        | Object props => Normal (Array (Object_values props))
        | _ => Normal (Array [])
        end
  else Normal (Array []).

(** [getGroups()], given what the HTTP GET delivers. *)
Definition getGroups (http_get : Rx.Notification Value) : Rx.Notification Value :=
  Rx.catchError (fun _ => Rx.of_ (Array []))
    (Rx.map getGroups_project http_get).

End GroupsService.

(* ===================================================================== *)
(** ** Strings *)
(* ===================================================================== *)

Module Strings.

Definition lower_char (c : ascii) : ascii :=
  let n := nat_of_ascii c in
  if ((65 <=? n) && (n <=? 90))%nat then ascii_of_nat (n + 32) else c.

(** [s.toLowerCase()]. *)
Fixpoint toLowerCase (s : string) : string :=
  match s with
  | EmptyString => EmptyString
  | String c s' => String (lower_char c) (toLowerCase s')
  end.

(** White space removed by [trim]: TAB, LF, VT, FF, CR and space. *)
Definition is_space (c : ascii) : bool :=
  let n := nat_of_ascii c in ((9 <=? n) && (n <=? 13) || (n =? 32))%nat.

Fixpoint trimStart (s : string) : string :=
  match s with
  | EmptyString => EmptyString
  | String c s' => if is_space c then trimStart s' else s
  end.

Fixpoint trimEnd (s : string) : string :=
  match s with
  | EmptyString => EmptyString
  | String c s' =>
      match trimEnd s' with
      | EmptyString => if is_space c then EmptyString else String c EmptyString
      | t => String c t
      end
  end.

(** [s.trim()]. *)
Definition trim (s : string) : string := trimEnd (trimStart s).

(** [s.includes(t)]: [t] occurs in [s] at some offset. *)
Fixpoint includes (s t : string) : bool :=
  String.prefix t s ||
  match s with
  | EmptyString => false
  | String _ s' => includes s' t
  end.

(** [n.toString()] of an integer: decimal digits, [-] for a negative one. *)
Definition toString (n : Z) : string := NilZero.string_of_int (Z.to_int n).


End Strings.

Import Strings.

(* ===================================================================== *)
(** ** Entity interfaces (EcommerceInterface) *)
(* ===================================================================== *)

(** Modelled from the spec: the declaration of [IRecord] is not part of the
    sources; the fields are those of the data model (section 3) and of the
    component's [record] literal.  Every property may be missing or null
    ([None]), as in a parsed payload. *)
Record IRecord : Type := mkRecord {
  idRecord : option Z;
  titleRecord : option string;
  yearOfPublication : option Z;
  imageRecord : option string;
  photo : option string;
  photoName : option string;
  price : option Z;
  stock : option Z;
  discontinued : option bool;
  groupId : option Z;
  groupName : option string;
  nameGroup : option string;
  inCart : option bool;
  amount : option Z
}.

#[export] Instance IRecord_inhabited : Inhabited IRecord :=
  populate (mkRecord None None None None None None None None None None None
              None None None).

Definition with_stock (v : option Z) (r : IRecord) : IRecord :=
  mkRecord (idRecord r) (titleRecord r) (yearOfPublication r) (imageRecord r)
    (photo r) (photoName r) (price r) v (discontinued r) (groupId r)
    (groupName r) (nameGroup r) (inCart r) (amount r).

Definition with_groupName (v : option string) (r : IRecord) : IRecord :=
  mkRecord (idRecord r) (titleRecord r) (yearOfPublication r) (imageRecord r)
    (photo r) (photoName r) (price r) (stock r) (discontinued r) (groupId r)
    v (nameGroup r) (inCart r) (amount r).

Definition with_nameGroup (v : option string) (r : IRecord) : IRecord :=
  mkRecord (idRecord r) (titleRecord r) (yearOfPublication r) (imageRecord r)
    (photo r) (photoName r) (price r) (stock r) (discontinued r) (groupId r)
    (groupName r) v (inCart r) (amount r).

Definition with_inCart (v : option bool) (r : IRecord) : IRecord :=
  mkRecord (idRecord r) (titleRecord r) (yearOfPublication r) (imageRecord r)
    (photo r) (photoName r) (price r) (stock r) (discontinued r) (groupId r)
    (groupName r) (nameGroup r) v (amount r).

Definition with_amount (v : option Z) (r : IRecord) : IRecord :=
  mkRecord (idRecord r) (titleRecord r) (yearOfPublication r) (imageRecord r)
    (photo r) (photoName r) (price r) (stock r) (discontinued r) (groupId r)
    (groupName r) (nameGroup r) (inCart r) v.

Module Group.
(** Modelled from the spec: the declaration of [IGroup] is not part of the
    sources; identity [idGroup] and display name [nameGroup] are the two
    properties the component reads (data model, section 3). *)
Record IGroup : Type := mkGroup {
  idGroup : option Z;
  nameGroup : option string
}.
End Group.

Module Cart.
(** Modelled from the spec: the element type of the cart channel is not part
    of the sources; section 6 gives it as [{idRecord, amount}]. *)
Record Item : Type := mkItem {
  idRecord : Z;
  amount : option Z
}.
End Cart.

Module Stock.
(** Modelled from the spec: the payload type of the stock channel is not part
    of the sources; section 6 gives it as [{recordId, newStock}]. *)
Record Update : Type := mkUpdate {
  recordId : Z;
  newStock : Z
}.
End Stock.

(** Reading a payload object through an interface: a property that is
    missing, null or not of the declared type reads as [None].  Payload
    elements are objects of the interface; other elements are outside it. *)
Definition num_prop (v : Value) (k : string) : option Z :=
  match v with
  | Object props => match own k props with Some (Number n) => Some n | _ => None end
  | _ => None
  end.

Definition str_prop (v : Value) (k : string) : option string :=
  match v with
  | Object props => match own k props with Some (Str x) => Some x | _ => None end
  | _ => None
  end.

Definition bool_prop (v : Value) (k : string) : option bool :=
  match v with
  | Object props => match own k props with Some (Bool b) => Some b | _ => None end
  | _ => None
  end.

Definition as_IRecord (v : Value) : IRecord :=
  mkRecord (num_prop v "idRecord") (str_prop v "titleRecord")
    (num_prop v "yearOfPublication") (str_prop v "imageRecord")
    (str_prop v "photo") (str_prop v "photoName") (num_prop v "price")
    (num_prop v "stock") (bool_prop v "discontinued") (num_prop v "groupId")
    (str_prop v "groupName") (str_prop v "nameGroup") (bool_prop v "inCart")
    (num_prop v "amount").

Definition as_IGroup (v : Value) : Group.IGroup :=
  Group.mkGroup (num_prop v "idGroup") (str_prop v "nameGroup").

(* ===================================================================== *)
(** ** RecordsComponent: state *)
(* ===================================================================== *)

Module RecordsComponent.

(** A reference to a record object of the store: its index. *)
Abbreviation loc := nat.

(** An array of record references, with its identity. *)
Record Arr : Type := mkArr {
  arr_id : nat;
  arr_elems : list loc
}.

(** The two places that subscribe to [groupsService.getGroups()]. *)
Inductive GroupsCallback : Type :=
| AssignNames (recordsArray : Arr)   (* inside getRecords, closes over recordsArray *)
| LoadGroups.                        (* getGroups *)

(** Calls made to the injected services. *)
Inductive Request : Type :=
| RecordsService_getRecords
| RecordsService_addRecord (r : IRecord)
| RecordsService_updateRecord (r : IRecord)
| RecordsService_deleteRecord (id : Z)
| GroupsService_getGroups (k : GroupsCallback)
| StockService_updateStock (recordId : Z) (stock : Z)
| CartService_addToCart (record : loc)
| CartService_removeFromCart (record : loc).

(** The fields of the component that its methods read or write, the store
    of record objects ([heap], a location is an index), the next unused
    array identity, and [userService.email]. *)
Record State : Type := mkState {
  heap : list IRecord;
  next_array : nat;
  userEmail : option string;
  visibleError : bool;
  errorMessage : Value;
  records : Arr;
  filteredRecords : Arr;
  searchText : option string;
  record : IRecord;
  groups : list Value
}.

Definition set_heap (v : list IRecord) (st : State) : State :=
  mkState v (next_array st) (userEmail st) (visibleError st) (errorMessage st)
    (records st) (filteredRecords st) (searchText st) (record st) (groups st)
    .

Definition set_next_array (v : nat) (st : State) : State :=
  mkState (heap st) v (userEmail st) (visibleError st) (errorMessage st)
    (records st) (filteredRecords st) (searchText st) (record st) (groups st)
    .

Definition set_userEmail (v : option string) (st : State) : State :=
  mkState (heap st) (next_array st) v (visibleError st) (errorMessage st)
    (records st) (filteredRecords st) (searchText st) (record st) (groups st)
    .

Definition set_visibleError (v : bool) (st : State) : State :=
  mkState (heap st) (next_array st) (userEmail st) v (errorMessage st)
    (records st) (filteredRecords st) (searchText st) (record st) (groups st)
    .

Definition set_errorMessage (v : Value) (st : State) : State :=
  mkState (heap st) (next_array st) (userEmail st) (visibleError st) v
    (records st) (filteredRecords st) (searchText st) (record st) (groups st)
    .

Definition set_records (v : Arr) (st : State) : State :=
  mkState (heap st) (next_array st) (userEmail st) (visibleError st)
    (errorMessage st) v (filteredRecords st) (searchText st) (record st)
    (groups st) .

Definition set_filteredRecords (v : Arr) (st : State) : State :=
  mkState (heap st) (next_array st) (userEmail st) (visibleError st)
    (errorMessage st) (records st) v (searchText st) (record st) (groups st) .

Definition set_searchText (v : option string) (st : State) : State :=
  mkState (heap st) (next_array st) (userEmail st) (visibleError st)
    (errorMessage st) (records st) (filteredRecords st) v (record st)
    (groups st) .

Definition set_record (v : IRecord) (st : State) : State :=
  mkState (heap st) (next_array st) (userEmail st) (visibleError st)
    (errorMessage st) (records st) (filteredRecords st) (searchText st) v
    (groups st) .

Definition set_groups (v : list Value) (st : State) : State :=
  mkState (heap st) (next_array st) (userEmail st) (visibleError st)
    (errorMessage st) (records st) (filteredRecords st) (searchText st)
    (record st) v.

(** The [record] literal of the field initialiser and of [cancelEdition]. *)
Definition empty_record : IRecord :=
  mkRecord (Some 0) (Some "") None None None None (Some 0) (Some 0)
    (Some false) None (Some "") (Some "") None None.

(** Field initialisers of the class. *)
Definition initial (email : option string) : State :=
  mkState [] 2 email false (Str "") (mkArr 0 []) (mkArr 1 []) (Some "")
    empty_record [].

(* --------------------------------------------------------------------- *)
(** *** Method bodies: state, issued calls and exceptions *)
(* --------------------------------------------------------------------- *)

Record Effect (A : Type) : Type := mkEffect {
  completion : Completion A;
  after : State;
  issued : list Request
}.
Arguments mkEffect {A} _ _ _.
Arguments completion {A} _.
Arguments after {A} _.
Arguments issued {A} _.

Definition M (A : Type) : Type := State → Effect A.

Definition ret {A} (a : A) : M A := fun st => mkEffect (Normal a) st [].

Definition bind {A B} (m : M A) (k : A → M B) : M B := fun st =>
  let e := m st in
  match completion e with
  | Normal a =>
      let e' := k a (after e) in
      mkEffect (completion e') (after e') (issued e ++ issued e')
  | Throw x => mkEffect (Throw x) (after e) (issued e)
  end.

Declare Scope m_scope.
Delimit Scope m_scope with M.
Notation "'let*' x ':=' c 'in' k" := (bind c (fun x => k))
  (at level 10, x name, c at level 100, k at level 200) : m_scope.
Notation "c1 ;; c2" := (bind c1 (fun _ => c2))
  (at level 100, c2 at level 200, right associativity) : m_scope.
Local Open Scope m_scope.

Definition lift {A} (c : Completion A) : M A := fun st => mkEffect c st [].
Definition get : M State := fun st => mkEffect (Normal st) st [].
Definition modify (f : State → State) : M unit := fun st => mkEffect (Normal tt) (f st) [].
Definition request (r : Request) : M unit := fun st => mkEffect (Normal tt) st [r].

(** A new object. *)
Definition alloc (r : IRecord) : M loc := fun st =>
  mkEffect (Normal (length (heap st))) (set_heap (heap st ++ [r]) st) [].

(** Reading the object behind a reference. *)
Definition read (l : loc) : M IRecord := fun st =>
  mkEffect (Normal (heap st !!! l)) st [].

(** Assigning to properties of the object behind a reference. *)
Definition mutate (l : loc) (f : IRecord → IRecord) : M unit :=
  modify (fun st => set_heap (alter f l (heap st)) st).

(** A new array with the given elements. *)
Definition new_array (elems : list loc) : M Arr := fun st =>
  mkEffect (Normal (mkArr (next_array st) elems))
    (set_next_array (S (next_array st)) st) [].

(** [xs.map(f)] where the callback has effects; the result's identity is
    given by the caller with [new_array]. *)
Fixpoint mapM {A B} (f : A → M B) (xs : list A) : M (list B) :=
  match xs with
  | [] => ret []
  | x :: xs' => let* y := f x in let* ys := mapM f xs' in ret (y :: ys)
  end.

(** [xs.forEach(f)]. *)
Fixpoint forEach {A} (f : A → M unit) (xs : list A) : M unit :=
  match xs with
  | [] => ret tt
  | x :: xs' => f x ;; forEach f xs'
  end.

(** [[...this.records]]. *)
Definition spread (a : Arr) : M Arr := new_array (arr_elems a).

(* --------------------------------------------------------------------- *)
(** *** constructor: stock and cart subscriptions *)
(* --------------------------------------------------------------------- *)

(** [record => record.idRecord === recordId ? { ...record, stock: newStock } : record] *)
Definition restock (recordId newStock : Z) (l : loc) : M loc :=
  let* r := read l in
  if bool_decide (idRecord r = Some recordId)
  then alloc (with_stock (Some newStock) r)
  else ret l.

(** The subscriber of [stockService.stockUpdate$]. *)
Definition stockUpdate_next (update : option Stock.Update) : M unit :=
  match update with
  | None => ret tt
  | Some u =>
      let recordId := Stock.recordId u in
      let newStock := Stock.newStock u in
      let* st := get in
      let* rs := mapM (restock recordId newStock) (arr_elems (records st)) in
      let* a := new_array rs in
      modify (set_records a) ;;
      let* st := get in
      let* fs := mapM (restock recordId newStock) (arr_elems (filteredRecords st)) in
      let* b := new_array fs in
      modify (set_filteredRecords b)
  end.

(** The body of the [forEach] callback of the cart subscriber. *)
Definition reconcile (cartItems : list Cart.Item) (r : IRecord) : IRecord :=
  let cartItem :=
    List.find (fun item => bool_decide (Some (Cart.idRecord item) = idRecord r))
      cartItems in
  let r := with_inCart (Some (bool_decide (is_Some cartItem))) r in
  with_amount
    (Some match cartItem with
          | Some item => or_else (Cart.amount item) 0
          | None => 0
          end) r.

(** The subscriber of [cartService.cart$]. *)
Definition cart_next (cartItems : list Cart.Item) : M unit :=
  let* st := get in
  forEach (fun l => mutate l (reconcile cartItems)) (arr_elems (records st)) ;;
  let* st := get in
  let* copy := spread (records st) in
  modify (set_filteredRecords copy).

(* --------------------------------------------------------------------- *)
(** *** getRecords *)
(* --------------------------------------------------------------------- *)

(** Lines "Extract records array from response". *)
Definition getRecords_recordsArray (data : Value) : Completion (list Value) :=
  if isArray data then Normal (elements data)
  else
    let! c := and_then (truthy data)
                (let! v := member data "$values" in Normal (isArray v)) in
    if c then let! v := member data "$values" in Normal (elements v)
    else
      let! c := and_then (truthy data)
                  (let! v := member data "data" in Normal (isArray v)) in
      if c then let! v := member data "data" in Normal (elements v)
      else Normal [].

(** The group list as the [next] callback nested in [getRecords] reads it. *)
Definition getRecords_groups (groupsResponse : Value) : Completion (list Value) :=
  if isArray groupsResponse then Normal (elements groupsResponse)
  else
    let! c := and_then (truthy groupsResponse)
                (let! v := member groupsResponse "$values" in Normal (isArray v)) in
    if c then let! v := member groupsResponse "$values" in Normal (elements v)
    else Normal [].

(** The [map] callback "Assign the group name to each record". *)
Definition processRecord (groups : list Group.IGroup) (record : IRecord) : IRecord :=
  let processedRecord :=
    mkRecord
      (Some (or_else (idRecord record) 0))
      (Some (or_else (titleRecord record) ""))
      (or_null (yearOfPublication record))
      (or_null (imageRecord record))
      (or_null (photo record))
      (or_null (photoName record))
      (Some (or_else (price record) 0))
      (Some (or_else (stock record) 0))
      (Some (or_else (discontinued record) false))
      (or_null (groupId record))
      (Some "")
      (Some "")
      None
      None in
  match groupId processedRecord with
  | Some gid =>
      match List.find (fun g => bool_decide (Group.idGroup g = Some gid)) groups with
      | Some group =>
          with_nameGroup (Some (or_else (Group.nameGroup group) ""))
            (with_groupName (Some (or_else (Group.nameGroup group) "")) processedRecord)
      | None => processedRecord
      end
  | None => processedRecord
  end.

(** "Initialize stock values in the stock service". *)
Definition seedStock (l : loc) : M unit :=
  let* r := read l in
  match idRecord r, stock r with
  | Some id, Some s => if truthy id then request (StockService_updateStock id s) else ret tt
  | _, _ => ret tt
  end.

Definition getRecords : M unit := request RecordsService_getRecords.

(** [next] of [recordsService.getRecords()].  The objects of the payload
    enter the store as they are read through [IRecord], and the array that
    holds them ([data], [data.$values], [data.data] or a new empty one) gets
    its identity here. *)
Definition getRecords_next (data : Value) : M unit :=
  let* elems := lift (getRecords_recordsArray data) in
  let* ls := mapM (fun v => alloc (as_IRecord v)) elems in
  let* recordsArray := new_array ls in
  forEach seedStock (arr_elems recordsArray) ;;
  request (GroupsService_getGroups (AssignNames recordsArray)).

(** Statement [this.controlError(err)]. *)
Definition controlError_message (err : Value) : Completion Value :=
  let! e := member err "error" in
  let! structured :=
    and_then (truthy e && String.eqb (typeof e) "object")
      (let! m := member e "message" in Normal (truthy m)) in
  if structured then member e "message"
  else if String.eqb (typeof e) "string" then Normal e
  else Normal (Str "An unexpected error has occurred").

Definition controlError (err : Value) : M unit :=
  let* m := lift (controlError_message err) in
  modify (set_errorMessage m).

Definition getRecords_error (err : Value) : M unit :=
  modify (set_visibleError true) ;;
  controlError err.

(** [next] of the nested [groupsService.getGroups()]. *)
Definition getRecords_groups_next (recordsArray : Arr) (groupsResponse : Value) : M unit :=
  let* groups := lift (getRecords_groups groupsResponse) in
  let* processedRecords :=
    mapM (fun l => let* r := read l in alloc (processRecord (map as_IGroup groups) r))
      (arr_elems recordsArray) in
  let* a := new_array processedRecords in
  modify (set_records a) ;;
  let* st := get in
  let* copy := spread (records st) in
  modify (set_filteredRecords copy).

(** [error] of the nested [groupsService.getGroups()]. *)
Definition getRecords_groups_error (recordsArray : Arr) (err : Value) : M unit :=
  modify (set_records recordsArray) ;;
  let* st := get in
  let* copy := spread (records st) in
  modify (set_filteredRecords copy).

(* --------------------------------------------------------------------- *)
(** *** filterRecords *)
(* --------------------------------------------------------------------- *)

(** [o?.f(..)] as a condition: a missing property makes it falsy. *)
Definition opt_test {A} (o : option A) (f : A → bool) : bool :=
  match o with Some a => f a | None => false end.

(** The callback of [this.records.filter]. *)
Definition matches (searchTerm : string) (r : IRecord) : bool :=
  opt_test (titleRecord r) (fun t => includes (toLowerCase t) searchTerm)
  || opt_test (groupName r) (fun g => includes (toLowerCase g) searchTerm)
  || opt_test (yearOfPublication r) (fun y => includes (toString y) searchTerm).

Definition filterRecords : M unit :=
  let* st := get in
  if negb (opt_test (searchText st) (fun t => truthy (trim t))) then
    let* copy := spread (records st) in
    modify (set_filteredRecords copy)
  else
    let searchTerm := toLowerCase (default "" (searchText st)) in
    let* filtered :=
      new_array (List.filter (fun l => matches searchTerm (heap st !!! l))
                   (arr_elems (records st))) in
    modify (set_filteredRecords filtered).

Definition onSearchChange : M unit := filterRecords.

(* --------------------------------------------------------------------- *)
(** *** getGroups *)
(* --------------------------------------------------------------------- *)

(** "Flexible handling of different response structures". *)
Definition getGroups_groupsArray (response : Value) : Completion (list Value) :=
  if isArray response then Normal (elements response)
  else
    let! v := member response "$values" in
    if isArray v then Normal (elements v)
    else
      let! d := member response "data" in
      if isArray d then Normal (elements d)
      else Normal [].

Definition getGroups : M unit := request (GroupsService_getGroups LoadGroups).

Definition getGroups_next (response : Value) : M unit :=
  let* groupsArray := lift (getGroups_groupsArray response) in
  modify (set_groups groupsArray).

Definition getGroups_error (err : Value) : M unit :=
  modify (set_visibleError true) ;;
  controlError err.

(* --------------------------------------------------------------------- *)
(** *** save, deleteRecord, cancelEdition *)
(* --------------------------------------------------------------------- *)

Definition cancelEdition : M unit := modify (set_record empty_record).

Definition save : M unit :=
  let* st := get in
  if bool_decide (idRecord (record st) = Some 0)
  then request (RecordsService_addRecord (record st))
  else request (RecordsService_updateRecord (record st)).

Definition save_addRecord_next : M unit :=
  modify (set_visibleError false) ;;
  getRecords.

Definition save_addRecord_error (err : Value) : M unit :=
  modify (set_visibleError true) ;;
  controlError err.

Definition save_updateRecord_next : M unit :=
  modify (set_visibleError false) ;;
  cancelEdition ;;
  getRecords.

Definition save_updateRecord_error (err : Value) : M unit :=
  modify (set_visibleError true) ;;
  controlError err.

Definition deleteRecord (id : Z) : M unit := request (RecordsService_deleteRecord id).

Definition deleteRecord_next : M unit :=
  modify (set_visibleError false) ;;
  getRecords.

Definition deleteRecord_error (err : Value) : M unit :=
  modify (set_visibleError true) ;;
  controlError err.

(* --------------------------------------------------------------------- *)
(** *** addToCart, removeFromCart *)
(* --------------------------------------------------------------------- *)

Definition addToCart (record : loc) : M unit :=
  let* st := get in
  let userEmail := userEmail st in
  if negb (opt_test userEmail truthy) then ret tt
  else request (CartService_addToCart record).

Definition addToCart_next (record : loc) : M unit :=
  mutate record (with_inCart (Some true)) ;;
  mutate record (fun r => with_amount (Some (or_else (amount r) 0 + 1)) r) ;;
  let* st := get in
  let* copy := spread (records st) in
  modify (set_filteredRecords copy).

Definition addToCart_error (record : loc) : M unit :=
  mutate record (with_inCart (Some false)) ;;
  mutate record (with_amount (Some 0)) ;;
  let* st := get in
  let* copy := spread (records st) in
  modify (set_filteredRecords copy).

Definition removeFromCart (record : loc) : M unit :=
  let* st := get in
  let userEmail := userEmail st in
  let* r := read record in
  if negb (opt_test userEmail truthy) || negb (opt_test (inCart r) truthy) then ret tt
  else request (CartService_removeFromCart record).

Definition removeFromCart_next (record : loc) : M unit :=
  mutate record (fun r => with_amount (Some (Z.max 0 (or_else (amount r) 0 - 1))) r) ;;
  mutate record (fun r => with_inCart (Some (opt_test (amount r) (fun a => (0 <? a)%Z))) r) ;;
  let* st := get in
  let* copy := spread (records st) in
  modify (set_filteredRecords copy).

Definition removeFromCart_error (record : loc) : M unit :=
  mutate record (fun r => with_amount (Some (or_else (amount r) 0 + 1)) r) ;;
  mutate record (with_inCart (Some true)) ;;
  let* st := get in
  let* copy := spread (records st) in
  modify (set_filteredRecords copy).

(* --------------------------------------------------------------------- *)
(** *** The event loop *)
(* --------------------------------------------------------------------- *)

(** The continuation registered with [subscribe] for each call, run on what
    the call delivers.  [groupsService.getGroups()] is the piped observable
    of [GroupsService]; the other services hand over the transport's
    notification. *)
Definition resolve (rq : Request) (http : Rx.Notification Value) : M unit :=
  match rq with
  | RecordsService_getRecords =>
      Rx.subscribe http getRecords_next getRecords_error
  | RecordsService_addRecord _ =>
      Rx.subscribe http (fun _ => save_addRecord_next) save_addRecord_error
  | RecordsService_updateRecord _ =>
      Rx.subscribe http (fun _ => save_updateRecord_next) save_updateRecord_error
  | RecordsService_deleteRecord _ =>
      Rx.subscribe http (fun _ => deleteRecord_next) deleteRecord_error
  | GroupsService_getGroups (AssignNames recordsArray) =>
      Rx.subscribe (GroupsService.getGroups http)
        (getRecords_groups_next recordsArray) (getRecords_groups_error recordsArray)
  | GroupsService_getGroups LoadGroups =>
      Rx.subscribe (GroupsService.getGroups http) getGroups_next getGroups_error
  | StockService_updateStock _ _ => ret tt
  | CartService_addToCart l =>
      Rx.subscribe http (fun _ => addToCart_next l) (fun _ => addToCart_error l)
  | CartService_removeFromCart l =>
      Rx.subscribe http (fun _ => removeFromCart_next l) (fun _ => removeFromCart_error l)
  end.

(** What the screen reacts to. *)
Inductive Event : Type :=
| StockEmission (update : option Stock.Update)
| CartEmission (cartItems : list Cart.Item)
| Resolved (rq : Request) (http : Rx.Notification Value)
| SearchInput (text : option string)
| SaveClicked
| DeleteAccepted (id : Z)
| AddToCartClicked (record : loc)
| RemoveFromCartClicked (record : loc).

Definition handle (ev : Event) : M unit :=
  match ev with
  | StockEmission update => stockUpdate_next update
  | CartEmission cartItems => cart_next cartItems
  | Resolved rq http => resolve rq http
  | SearchInput text => modify (set_searchText text) ;; onSearchChange
  | SaveClicked => save
  | DeleteAccepted id => deleteRecord id
  | AddToCartClicked l => addToCart l
  | RemoveFromCartClicked l => removeFromCart l
  end.

(** The constructor's two loads. *)
Definition constructor : M unit := getRecords ;; getGroups.

(** The state after a handler has run. *)
Definition run (m : M unit) (st : State) : State := after (m st).

(** Events handled one after the other, in emission order. *)
Definition run_all (evs : list Event) (st : State) : State :=
  fold_left (fun s ev => run (handle ev) s) evs st.

(** The objects an array refers to. *)
Definition view (st : State) (a : Arr) : list IRecord :=
  map (fun l => heap st !!! l) (arr_elems a).

(** Every reference held by the two arrays names an object of the store,
    and the identities of the two arrays have been handed out. *)
Definition wf (st : State) : Prop :=
  Forall (fun l => (l < length (heap st))%nat) (arr_elems (records st)) ∧
  Forall (fun l => (l < length (heap st))%nat) (arr_elems (filteredRecords st)) ∧
  (arr_id (records st) < next_array st)%nat ∧
  (arr_id (filteredRecords st) < next_array st)%nat.

(* --------------------------------------------------------------------- *)
(** *** edit, extractImageName *)
(* --------------------------------------------------------------------- *)

Definition with_photo (v : option string) (r : IRecord) : IRecord :=
  mkRecord (idRecord r) (titleRecord r) (yearOfPublication r) (imageRecord r)
    v (photoName r) (price r) (stock r) (discontinued r) (groupId r)
    (groupName r) (nameGroup r) (inCart r) (amount r).

Definition with_photoName (v : option string) (r : IRecord) : IRecord :=
  mkRecord (idRecord r) (titleRecord r) (yearOfPublication r) (imageRecord r)
    (photo r) v (price r) (stock r) (discontinued r) (groupId r)
    (groupName r) (nameGroup r) (inCart r) (amount r).

(** [s.split(sep)] for a one-character separator: the pieces between the
    separators, at least one piece. *)
Fixpoint split (sep : ascii) (s : string) : list string :=
  match s with
  | EmptyString => [EmptyString]
  | String c s' =>
      if Ascii.eqb c sep then EmptyString :: split sep s'
      else match split sep s' with
           | piece :: pieces => String c piece :: pieces
           | [] => [String c EmptyString]
           end
  end.

Definition extractImageName (url : string) : string :=
  if negb (truthy url) then ""
  else
    let parts := split "/" url in
    default "" (last parts).

(** [edit(record)]: the edit buffer becomes a copy of the record. *)
Definition edit (l : loc) : M unit :=
  let* r := read l in
  modify (set_record r) ;;
  modify (fun st => set_record (with_photo None (record st)) st) ;;
  modify (fun st =>
            set_record
              (with_photoName
                 (if opt_test (imageRecord r) truthy
                  then option_map extractImageName (imageRecord r)
                  else None)
                 (record st)) st).

End RecordsComponent.

Import RecordsComponent.
Local Open Scope m_scope.

(* ===================================================================== *)
(** ** Sample data *)
(* ===================================================================== *)

Module Sample.

Definition rock : Value := Object [("idGroup", Number 9); ("nameGroup", Str "Rock")].

Definition album : Value :=
  Object [("idRecord", Number 1); ("titleRecord", Str "A");
          ("groupId", Number 9); ("stock", Number 2)].

Definition r7 : IRecord :=
  mkRecord (Some 7) (Some "Nevermind") (Some 1991) None None None (Some 10)
    (Some 4) (Some false) (Some 9) (Some "Nirvana") (Some "Nirvana") None None.

Definition r8 : IRecord :=
  mkRecord (Some 8) (Some "OK Computer") (Some 1997) None None None (Some 12)
    (Some 1) (Some false) (Some 3) (Some "Radiohead") (Some "Radiohead")
    (Some true) (Some 1).

(** Two records on screen, a signed-in user. *)
Definition screen : State :=
  mkState [r7; r8] 2 (Some "ana@example.org") false (Str "")
    (mkArr 0 [0%nat; 1%nat]) (mkArr 1 [0%nat; 1%nat]) (Some "")
    empty_record [].

End Sample.

(* ===================================================================== *)
(** ** Envelopes *)
(* ===================================================================== *)

Module Envelope.

(** The three encodings of a list of entities that the gateways may send. *)
Definition bare (l : list Value) : Value := Array l.
Definition values_wrapper (l : list Value) : Value := Object [("$values", Array l)].
Definition data_wrapper (l : list Value) : Value := Object [("data", Array l)].

(** [v] has one of the three shapes: it is a sequence, or an object whose
    [$values] is a sequence, or an object whose [data] is a sequence. *)
Definition tolerated (v : Value) : bool :=
  isArray v ||
  match v with
  | Object props =>
      isArray (default Undefined (own "$values" props)) ||
      isArray (default Undefined (own "data" props))
  | _ => false
  end.

End Envelope.

Import Envelope.

(* ===================================================================== *)
(** ** Coercions of values to text *)
(* ===================================================================== *)

Module Coerce.

(** [xs.join(sep)], given how an element is turned into text. *)
Definition join_by {A} (f : A → Completion string) (sep : string)
  : list A → Completion string :=
  fix go (xs : list A) : Completion string :=
    match xs with
    | [] => Normal ""
    | [x] => f x
    | x :: rest =>
        let! a := f x in
        let! b := go rest in
        Normal (a +:+ sep +:+ b)
    end.

(** [String(v)] and [`${v}`].  An array is joined with commas, its null and
    undefined elements giving the empty text; a plain object gives
    [[object Object]], unless an own property [toString] (never callable in
    a parsed payload) hides the inherited method. *)
Fixpoint ToString (v : Value) : Completion string :=
  match v with
  | Undefined => Normal "undefined"
  | Null => Normal "null"
  | Bool b => Normal (if b then "true" else "false")
  | Number n => Normal (toString n)
  | Str s => Normal s
  | Array elems =>
      join_by (fun x => match x with
                        | Undefined | Null => Normal ""
                        | _ => ToString x
                        end) "," elems
  | Object props =>
      match own "toString" props with
      | Some _ => Throw TypeError
      | None => Normal "[object Object]"
      end
  end.

(** [xs.join(sep)] of an array of values. *)
Definition join (sep : string) (xs : list Value) : Completion string :=
  join_by (fun x => match x with
                    | Undefined | Null => Normal ""
                    | _ => ToString x
                    end) sep xs.

(** [xs.join(sep)] of an array of strings. *)
Fixpoint join_strings (sep : string) (xs : list string) : string :=
  match xs with
  | [] => ""
  | [x] => x
  | x :: rest => x +:+ sep +:+ join_strings sep rest
  end.

(** The keys [0], [1], .. of the elements of an array or of a string. *)
Fixpoint indexed {A} (i : nat) (xs : list A) : list (string * A) :=
  match xs with
  | [] => []
  | x :: rest => (toString (Z.of_nat i), x) :: indexed (S i) rest
  end.

Fixpoint chars (s : string) : list Value :=
  match s with
  | EmptyString => []
  | String c s' => Str (String c EmptyString) :: chars s'
  end.

(** An array index: the canonical decimal form of an integer from 0 to
    2^32 - 2. *)
Definition index_of (k : string) : option Z :=
  match NilZero.uint_of_string k with
  | Some d =>
      let n := Z.of_uint d in
      if String.eqb (toString n) k && (n <? 4294967295)%Z then Some n else None
  | None => None
  end.

Fixpoint insert_index {A} (n : Z) (e : A) (es : list (Z * A)) : list (Z * A) :=
  match es with
  | [] => [(n, e)]
  | (m, e') :: rest =>
      if (n <? m)%Z then (n, e) :: es else (m, e') :: insert_index n e rest
  end.

(** The own properties in the order of enumeration: those named by an array
    index first, by ascending index, then the others as they were created. *)
Definition enumerate (props : list (string * Value)) : list (string * Value) :=
  map snd
    (foldr (fun e es => match index_of (fst e) with
                        | Some n => insert_index n e es
                        | None => es
                        end) [] props) ++
  filter (fun e => index_of (fst e) = None) props.

(** [Object.entries(v)] of a value that is not null or undefined. *)
Definition Object_entries (v : Value) : list (string * Value) :=
  match v with
  | Object props => enumerate props
  | Array elems => indexed 0 elems
  | Str s => indexed 0 (chars s)
  | _ => []
  end.

(** [xs.map(f)] where [f] may throw. *)
Fixpoint map_completion {A B} (f : A → Completion B) (xs : list A)
  : Completion (list B) :=
  match xs with
  | [] => Normal []
  | x :: rest =>
      let! y := f x in
      let! ys := map_completion f rest in
      Normal (y :: ys)
  end.

(** [k in v] for a property name that no prototype defines. *)
Definition has_property (k : string) (v : Value) : Completion bool :=
  match v with
  | Object props => Normal (bool_decide (is_Some (own k props)))
  | Array _ => Normal false
  | _ => Throw TypeError
  end.

(** [v?.k]. *)
Definition optional_member (v : Value) (k : string) : Completion Value :=
  match v with
  | Undefined | Null => Normal Undefined
  | _ => member v k
  end.

End Coerce.

Import Coerce.

(* ===================================================================== *)
(** ** GroupsService: getHeaders, addGroup, updateGroup, deleteGroup, getGroupName *)
(* ===================================================================== *)

Module GroupsHttp.

(** A picked file: its name and its media type (the content is opaque).
    The type of a [File] is already in the form that [new Blob] gives to a
    type (lower case, or empty), so [new Blob(.., { type })] keeps it. *)
Record File : Type := mkFile {
  file_name : string;
  file_type : string
}.

(** Modelled from the spec: the declaration of [IGroup] is not part of the
    sources; these are the properties that [addGroup] and [updateGroup]
    read (data model, section 3). *)
Record IGroup : Type := mkGroup {
  idGroup : Z;
  nameGroup : string;
  musicGenreId : option Z;
  imageGroup : option string;
  photo : option File
}.

(** One part of a [FormData] body. *)
Record Part : Type := mkPart {
  part_field : string;
  part_filename : string;
  part_type : string
}.

(** What is handed to [HttpClient]. *)
Record Call : Type := mkCall {
  method : string;
  url : string;
  headers : list (string * string);
  params : list (string * string);
  body : option (list Part)
}.

(** [params.set(k, v)] and [headers[k] = v]: the entry of [k] is replaced
    where it stands, or added at the end. *)
Fixpoint set (k v : string) (entries : list (string * string))
  : list (string * string) :=
  match entries with
  | [] => [(k, v)]
  | (k', v') :: rest =>
      if String.eqb k k' then (k, v) :: rest else (k', v') :: set k v rest
  end.

Fixpoint get (k : string) (entries : list (string * string)) : option string :=
  match entries with
  | [] => None
  | (k', v) :: rest => if String.eqb k k' then Some v else get k rest
  end.

Section Service.

(** [environment.apiUrl.cdService] and the text of [authGuard.getToken()]. *)
Variables (baseUrl token : string).

Definition getHeaders (contentType : string) : list (string * string) :=
  let headers := [("Authorization", "Bearer " +:+ token);
                  ("Accept", "application/json")] in
  if truthy contentType && negb (String.eqb contentType "multipart/form-data")
  then set "Content-Type" contentType headers
  else headers.

(** [getHeaders()]: the default of the parameter. *)
Definition getHeaders_default : list (string * string) :=
  getHeaders "application/json".

Definition getGroups_call : Call :=
  mkCall "GET" (baseUrl +:+ "groups") getHeaders_default [] None.

Definition addGroup (group : IGroup) : Call :=
  let params := set "NameGroup" (nameGroup group) [] in
  let params :=
    if opt_test (musicGenreId group) truthy
    then set "MusicGenreId" (toString (default 0 (musicGenreId group))) params
    else params in
  let formData :=
    match photo group with
    | Some f =>
        [mkPart "Photo" (file_name f)
           (if truthy (file_type f) then file_type f else "application/octet-stream")]
    | None => []
    end in
  let headers := [("Authorization", "Bearer " +:+ token);
                  ("Accept", "text/plain")] in
  mkCall "POST" (baseUrl +:+ "Groups") headers params (Some formData).

Definition updateGroup (group : IGroup) : Call :=
  let params := set "NameGroup" (nameGroup group) [] in
  let params :=
    if opt_test (musicGenreId group) truthy
    then set "MusicGenreId" (toString (default 0 (musicGenreId group))) params
    else params in
  let params :=
    if opt_test (imageGroup group) truthy && negb (bool_decide (is_Some (photo group)))
    then set "ImageGroup" (default "" (imageGroup group)) params
    else params in
  let formData :=
    match photo group with
    | Some f => Some [mkPart "Photo" (file_name f) (file_type f)]
    | None => None
    end in
  let body := formData in
  mkCall "PUT" (baseUrl +:+ "Groups/" +:+ toString (idGroup group))
    (if bool_decide (is_Some body) then getHeaders "multipart/form-data"
     else getHeaders_default)
    params body.

Definition deleteGroup (id : Z) : Call :=
  mkCall "DELETE" (baseUrl +:+ "groups/" +:+ toString id) getHeaders_default [] None.

End Service.

(** [new Error(message)]. *)
Definition Error_ (message : string) : Value := Object [("message", Str message)].

(** [`${field}: ${Array.isArray(errors) ? errors.join(', ') : String(errors)}`] *)
Definition describe (entry : string * Value) : Completion string :=
  let field := fst entry in
  let errors := snd entry in
  let! text := (if isArray errors then join ", " (elements errors)
                else ToString errors) in
  Normal (field +:+ ": " +:+ text).

(** The message computed by the [catchError] callbacks of [addGroup] and
    [updateGroup], as [new Error(errorMessage)] stores it; the two callbacks
    differ in the two fixed texts. *)
Definition errorMessage (fallback unknown : string) (error : Value)
  : Completion string :=
  let! serverError := member error "error" in
  let! errors := optional_member serverError "errors" in
  if truthy errors then
    let! lines := map_completion describe (Object_entries errors) in
    Normal ("Validation error: " +:+ join_strings "; " lines)
  else if truthy serverError then
    if String.eqb (typeof serverError) "object" then
      let! title := member serverError "title" in
      if truthy title then ToString title
      else
        let! message := member serverError "message" in
        if truthy message then ToString message
        else
          let! inner := member serverError "error" in
          if truthy inner then ToString inner else Normal unknown
    else if String.eqb (typeof serverError) "string" then ToString serverError
    else Normal fallback
  else Normal fallback.

Definition rethrow {A} (fallback unknown : string) (error : Value)
  : Rx.Notification A :=
  match errorMessage fallback unknown error with
  | Normal message => Rx.Error (Error_ message)
  | Throw e => Rx.Error e
  end.

(** What [addGroup(group)] delivers, given what the HTTP POST delivers. *)
Definition addGroup_result (http : Rx.Notification Value) : Rx.Notification Value :=
  Rx.catchError (rethrow "Error creating group" "Unknown server error") http.

(** What [updateGroup(group)] delivers, given what the HTTP PUT delivers. *)
Definition updateGroup_result (http : Rx.Notification Value) : Rx.Notification Value :=
  Rx.catchError (rethrow "Error updating group" "Error desconocido del servidor") http.

(** The [map] callback of [getGroupName]. *)
Definition getGroupName_project (response : Value) : Completion Value :=
  let! direct :=
    and_then (truthy response && String.eqb (typeof response) "object")
      (has_property "nameGroup" response) in
  if direct then member response "nameGroup"
  else
    let! wrapped :=
      and_then (truthy response)
        (let! v := member response "$values" in
         Normal (truthy v && String.eqb (typeof v) "object")) in
    if wrapped then
      let! v := member response "$values" in
      if isArray v && (0 <? length (elements v))%nat then
        let! n := member (default Undefined (head (elements v))) "nameGroup" in
        Normal (JS.or n (Str ""))
      else
        let! named := has_property "nameGroup" v in
        if named then member v "nameGroup" else Normal (Str "")
    else Normal (Str "").

(** [getGroupName(idGroup)], given what the HTTP GET delivers. *)
Definition getGroupName (http : Rx.Notification Value) : Rx.Notification Value :=
  Rx.map getGroupName_project http.

End GroupsHttp.

(* ===================================================================== *)
(** ** Vocabulary of the properties *)
(* ===================================================================== *)

Module Spec.


End Spec.

(** The four calls of the record gateway. *)
Definition record_gateway_call (rq : Request) : Prop :=
  match rq with
  | RecordsService_getRecords | RecordsService_addRecord _
  | RecordsService_updateRecord _ | RecordsService_deleteRecord _ => True
  | _ => False
  end.

(** The callback of the two [map] calls of the stock subscriber, on the
    object itself. *)
Definition restock_value (u : Stock.Update) (r : IRecord) : IRecord :=
  if bool_decide (idRecord r = Some (Stock.recordId u))
  then with_stock (Some (Stock.newStock u)) r
  else r.

(** How an entry [l] of an array and the entry [l'] at the same position
    after a stock event are related: a matching entry is a reference that
    did not exist in the store [h] and names a copy with the new stock;
    any other entry is the same reference. *)
Definition restocked (u : Stock.Update) (h h' : list IRecord) (l l' : loc) : Prop :=
  if bool_decide (idRecord (h !!! l) = Some (Stock.recordId u))
  then (length h ≤ l')%nat ∧
       h' !! l' = Some (with_stock (Some (Stock.newStock u)) (h !!! l))
  else l' = l.

(** Stock events with a payload, in emission order. *)
Definition stock_events (us : list Stock.Update) : list Event :=
  map (fun u => StockEmission (Some u)) us.

(** [st'] has the arrays of [st], a store at least as long and has handed
    out at least as many array identities. *)
Definition grows (st st' : State) : Prop :=
  records st' = records st ∧ filteredRecords st' = filteredRecords st ∧
  (length (heap st) ≤ length (heap st'))%nat ∧
  (next_array st ≤ next_array st')%nat.

(** A computation that leaves the two arrays alone. *)
Definition quiet {A} (m : M A) : Prop := ∀ st, grows st (after (m st)).


(* ===================================================================== *)
(** ** The store: effects of the array helpers *)
(* ===================================================================== *)

Section Store.

Lemma set_heap_id (st : State) : set_heap (heap st) st = st.
Proof. by destruct st. Qed.

Lemma bind_normal {A B} (m : M A) (k : A → M B) (st st1 : State) (a : A)
    (rs : list Request) :
  m st = mkEffect (Normal a) st1 rs →
  bind m k st =
    mkEffect (completion (k a st1)) (after (k a st1)) (rs ++ issued (k a st1)).
Proof. intros Heq. unfold bind. by rewrite Heq. Qed.

(** [records.forEach(record => { record.p = ..})]: every referenced object
    is updated in place, once per occurrence. *)
Lemma forEach_mutate (f : IRecord → IRecord) (ls : list loc) (st : State) :
  forEach (fun l => mutate l f) ls st =
  mkEffect (Normal tt)
    (set_heap (fold_left (fun h l => alter f l h) ls (heap st)) st) [].
Proof.
  revert st. induction ls as [|l ls IH]; intros st; cbn [forEach fold_left].
  - unfold ret. by rewrite set_heap_id.
  - unfold bind. cbn. rewrite IH. reflexivity.
Qed.

Lemma fold_alter_length (f : IRecord → IRecord) (ls : list loc) (h : list IRecord) :
  length (fold_left (fun h l => alter f l h) ls h) = length h.
Proof.
  revert h. induction ls as [|l ls IH]; intros h; cbn; [reflexivity|].
  by rewrite IH, length_alter.
Qed.

End Store.

(* ===================================================================== *)
(** ** Properties: response normalisation *)
(* ===================================================================== *)


Lemma nested_total (groupsResponse : Value) :
  ∃ groups, getRecords_groups groupsResponse = Normal groups.
Proof.
  destruct groupsResponse as [| |b|n|s|elems|props]; cbn; eauto.
  - destruct b; cbn; eauto.
  - destruct (truthy n); cbn; eauto.
  - destruct (truthy s); cbn; eauto.
  - destruct (isArray (default Undefined (own "$values" props))); cbn; eauto.
Qed.

(** [getGroups] of the service always delivers a value. *)
Lemma getGroups_delivers (http : Rx.Notification Value) :
  ∃ groups, GroupsService.getGroups http = Rx.Next groups.
Proof.
  unfold GroupsService.getGroups.
  destruct http as [response|e]; cbn; [|eauto].
  destruct (GroupsService.getGroups_project response); cbn; eauto.
Qed.

Lemma getGroups_transport_failure (e : Value) :
  GroupsService.getGroups (Rx.Error e) = Rx.Next (Array []).
Proof. reflexivity. Qed.

(** C10.  [GroupsService.getGroups] never delivers an error: a transport
    failure (and an exception of its own [map] callback) is turned into the
    empty list, whatever the HTTP call delivers a value is emitted, and so
    the outcome of subscribing does not depend on the error continuation;
    both subscriptions of the component run their [next] callback. *)
Theorem getGroups_error_continuation_unreachable :
  (∀ e, GroupsService.getGroups (Rx.Error e) = Rx.Next (Array [])) ∧
  (∀ http, ∃ groups, GroupsService.getGroups http = Rx.Next groups) ∧
  (∀ http (R : Type) (next : Value → R) (error error' : Value → R),
      Rx.subscribe (GroupsService.getGroups http) next error =
      Rx.subscribe (GroupsService.getGroups http) next error') ∧
  (∀ http, ∃ groups,
      resolve (GroupsService_getGroups LoadGroups) http = getGroups_next groups ∧
      ∀ recordsArray,
        resolve (GroupsService_getGroups (AssignNames recordsArray)) http =
        getRecords_groups_next recordsArray groups).
Proof.
  split; [exact getGroups_transport_failure|].
  split; [exact getGroups_delivers|].
  split.
  - intros http R next error error'.
    destruct (getGroups_delivers http) as [groups ->]. reflexivity.
  - intros http. destruct (getGroups_delivers http) as [groups Hg].
    exists groups. cbn. rewrite Hg. split; [reflexivity|]. intros; reflexivity.
Qed.

(** C6.  The bare sequence, the [$values] wrapper and the [data] wrapper of
    one list normalise to that list in [GroupsService.getGroups], in the
    record normalisation of [getRecords] and in [getGroups] of the component;
    the group normalisation nested in [getRecords] does so for the bare
    sequence and the [$values] wrapper but has no [data] case: it yields the
    empty list, which differs from the other two results for the one-group
    list.  The service hands such a value to it when the transport nests the
    [data] wrapper under [$values]. *)
Theorem nested_group_normalisation_drops_data_wrapper :
  (∀ l,
     GroupsService.getGroups (Rx.Next (bare l)) = Rx.Next (Array l) ∧
     GroupsService.getGroups (Rx.Next (values_wrapper l)) = Rx.Next (Array l) ∧
     GroupsService.getGroups (Rx.Next (data_wrapper l)) = Rx.Next (Array l)) ∧
  (∀ l,
     getRecords_recordsArray (bare l) = Normal l ∧
     getRecords_recordsArray (values_wrapper l) = Normal l ∧
     getRecords_recordsArray (data_wrapper l) = Normal l) ∧
  (∀ l,
     getGroups_groupsArray (bare l) = Normal l ∧
     getGroups_groupsArray (values_wrapper l) = Normal l ∧
     getGroups_groupsArray (data_wrapper l) = Normal l) ∧
  (∀ l,
     getRecords_groups (bare l) = Normal l ∧
     getRecords_groups (values_wrapper l) = Normal l ∧
     getRecords_groups (data_wrapper l) = Normal []) ∧
  getRecords_groups (data_wrapper [Sample.rock]) ≠ getRecords_groups (bare [Sample.rock]) ∧
  GroupsService.getGroups (Rx.Next (Object [("$values", data_wrapper [Sample.rock])])) =
    Rx.Next (data_wrapper [Sample.rock]).
Proof.
  repeat split; try reflexivity.
  cbn. discriminate.
Qed.

(** C4, as the spec words it, fails on the object [{a: 1}]: it has none of
    the three shapes, the record path yields the empty list instead of the
    object's values, and the service's group path yields the object's values
    instead of the empty list. *)
Lemma fallbacks_are_the_other_way_round :
  let v := Object [("a", Number 1)] in
  tolerated v = false ∧
  GroupsService.getGroups (Rx.Next v) ≠ Rx.Next (Array []) ∧
  getRecords_recordsArray v ≠ Normal (Object_values [("a", Number 1)]).
Proof.
  cbn. split; [reflexivity|]. split; discriminate.
Qed.

(** C4 (amended).  For a value with none of the three shapes: the record
    normalisation of [getRecords] yields the empty list; so does [getGroups]
    of the component unless the value is null or undefined (reading a
    property of it throws); [GroupsService.getGroups] enumerates the own
    values of an object that has no own [$values], [data] or
    [hasOwnProperty] property, and yields the empty list for a value that is
    not an object. *)
Theorem unrecognised_shape_fallbacks (v : Value) (Hshape : tolerated v = false) :
  getRecords_recordsArray v = Normal [] ∧
  (v ≠ Undefined → v ≠ Null → getGroups_groupsArray v = Normal []) ∧
  (∀ props, v = Object props →
     own "$values" props = None → own "data" props = None →
     own "hasOwnProperty" props = None →
     GroupsService.getGroups (Rx.Next v) = Rx.Next (Array (Object_values props))) ∧
  ((∀ props, v ≠ Object props) →
     GroupsService.getGroups (Rx.Next v) = Rx.Next (Array [])).
Proof.
  unfold tolerated in Hshape.
  split; [|split; [|split]].
  - destruct v as [| |b|n|s|elems|props]; cbn in Hshape; try discriminate; cbn.
    + reflexivity.
    + reflexivity.
    + destruct b; reflexivity.
    + destruct (truthy n); reflexivity.
    + destruct (truthy s); reflexivity.
    + apply orb_false_iff in Hshape as [H1 H2]. rewrite H1. cbn. rewrite H2. reflexivity.
  - intros Hu Hn.
    destruct v as [| |b|n|s|elems|props]; cbn in Hshape; try discriminate;
      try congruence; cbn; try reflexivity.
    apply orb_false_iff in Hshape as [H1 H2]. rewrite H1, H2. reflexivity.
  - intros props -> Hv Hd Hh. unfold GroupsService.getGroups. cbn.
    rewrite Hh, Hv. cbn. rewrite Hd. reflexivity.
  - intros Hno.
    destruct v as [| |b|n|s|elems|props]; cbn in Hshape; try discriminate;
      unfold GroupsService.getGroups; cbn; try reflexivity.
    + destruct b; reflexivity.
    + destruct (truthy n); reflexivity.
    + destruct (truthy s); reflexivity.
    + exfalso. apply (Hno props). reflexivity.
Qed.

Lemma unrecognised_shape_fallbacks_witness :
  let v := Object [("a", Number 1)] in
  getRecords_recordsArray v = Normal [] ∧
  getGroups_groupsArray v = Normal [] ∧
  GroupsService.getGroups (Rx.Next v) = Rx.Next (Array [Number 1]) ∧
  GroupsService.getGroups (Rx.Next (Number 5)) = Rx.Next (Array []).
Proof.
  pose proof (unrecognised_shape_fallbacks (Object [("a", Number 1)]) eq_refl)
    as (H1 & H2 & H3 & _).
  pose proof (unrecognised_shape_fallbacks (Number 5) eq_refl) as (_ & _ & _ & H4).
  split; [exact H1|].
  split; [apply H2; discriminate|].
  split; [apply (H3 _ eq_refl); reflexivity|].
  apply H4. intros props. discriminate.
Defined.

(* ===================================================================== *)
(** ** Properties: group-name resolution *)
(* ===================================================================== *)

Section GroupNames.

Implicit Types (groups : list Group.IGroup) (r : IRecord) (gid : Z).

Lemma find_no_match {A} (f : A → bool) (xs : list A) :
  (∀ x, x ∈ xs → f x = false) → List.find f xs = None.
Proof.
  induction xs as [|x xs IH]; intros Hall; cbn; [reflexivity|].
  rewrite (Hall x) by left. apply IH. intros y Hy. apply Hall. by right.
Qed.

Lemma find_first_match {A} (f : A → bool) (pre post : list A) (x : A) :
  (∀ y, y ∈ pre → f y = false) → f x = true →
  List.find f (pre ++ x :: post) = Some x.
Proof.
  induction pre as [|y pre IH]; intros Hpre Hx; cbn.
  - by rewrite Hx.
  - rewrite (Hpre y) by left. apply IH; [|done].
    intros z Hz. apply Hpre. by right.
Qed.

Lemma processRecord_same_names groups r :
  groupName (processRecord groups r) = nameGroup (processRecord groups r).
Proof.
  unfold processRecord. cbn.
  destruct (or_null (groupId r)) as [gid|]; [|reflexivity].
  destruct (List.find _ groups); reflexivity.
Qed.

Lemma or_null_Z_Some (o : option Z) gid :
  o = Some gid → gid ≠ 0 → or_null o = Some gid.
Proof.
  intros -> Hne. unfold or_null, truthy, truthy_Z.
  destruct (Z.eqb_spec gid 0); [contradiction|reflexivity].
Qed.

Lemma processRecord_absent groups r :
  groupId r = None ∨ groupId r = Some 0 →
  groupName (processRecord groups r) = Some "".
Proof. unfold processRecord. intros [-> | ->]; reflexivity. Qed.

Lemma processRecord_unmatched groups r gid :
  groupId r = Some gid → gid ≠ 0 →
  (∀ g, g ∈ groups → Group.idGroup g ≠ Some gid) →
  groupName (processRecord groups r) = Some "".
Proof.
  intros Hg Hne Hno. unfold processRecord. cbn.
  rewrite (or_null_Z_Some _ _ Hg Hne).
  rewrite find_no_match; [reflexivity|].
  intros g Hin. apply bool_decide_eq_false. by apply Hno.
Qed.

Lemma processRecord_matched pre post g r gid :
  groupId r = Some gid → gid ≠ 0 →
  (∀ g', g' ∈ pre → Group.idGroup g' ≠ Some gid) →
  Group.idGroup g = Some gid →
  groupName (processRecord (pre ++ g :: post) r) = Some (or_else (Group.nameGroup g) "").
Proof.
  intros Hg Hne Hpre Hid. unfold processRecord. cbn.
  rewrite (or_null_Z_Some _ _ Hg Hne).
  rewrite (find_first_match _ pre post g); [reflexivity| |].
  - intros g' Hin. apply bool_decide_eq_false. by apply Hpre.
  - by apply bool_decide_eq_true.
Qed.

End GroupNames.

(** C9, as the spec words it, fails for the identifier 0: the record has a
    [groupId], a group with that identifier and the name "Rock" is in the
    list, and the resolved name is the empty string. *)
Lemma group_zero_is_not_resolved :
  let r := mkRecord (Some 1) (Some "A") None None None None None None None
             (Some 0) None None None None in
  let groups := [Group.mkGroup (Some 0) (Some "Rock")] in
  groupId r = Some 0 ∧
  (∃ g, g ∈ groups ∧ Group.idGroup g = groupId r ∧ Group.nameGroup g = Some "Rock") ∧
  groupName (processRecord groups r) ≠ Some "Rock" ∧
  groupName (processRecord groups r) = Some "".
Proof.
  cbn. split; [reflexivity|]. split.
  - eexists. split; [by left|]. split; reflexivity.
  - split; [discriminate|reflexivity].
Qed.

(** C9 (amended).  For every record and every group list the resolution
    returns (it has no failing case) and writes one value into [groupName]
    and [nameGroup]; that value is the empty string when the record's
    [groupId] is absent or 0, the empty string when the [groupId] is another
    number that no group of the list has, and otherwise the [nameGroup] of
    the first group with that identifier, or the empty string when that name
    is missing or empty. *)
Theorem resolveGroupName_cases (groups : list Group.IGroup) (r : IRecord) :
  groupName (processRecord groups r) = nameGroup (processRecord groups r) ∧
  (groupId r = None ∨ groupId r = Some 0 →
     groupName (processRecord groups r) = Some "") ∧
  (∀ gid, groupId r = Some gid → gid ≠ 0 →
     (∀ g, g ∈ groups → Group.idGroup g ≠ Some gid) →
     groupName (processRecord groups r) = Some "") ∧
  (∀ gid (pre : list Group.IGroup) g post, groupId r = Some gid → gid ≠ 0 →
     groups = (pre ++ g :: post)%list →
     (∀ g', g' ∈ pre → Group.idGroup g' ≠ Some gid) →
     Group.idGroup g = Some gid →
     groupName (processRecord groups r) = Some (or_else (Group.nameGroup g) "") ∧
     (Group.nameGroup g = None ∨ Group.nameGroup g = Some "" →
        groupName (processRecord groups r) = Some "")).
Proof.
  split; [apply processRecord_same_names|].
  split; [apply processRecord_absent|].
  split; [intros gid; apply processRecord_unmatched|].
  intros gid pre g post Hg Hne -> Hpre Hid.
  rewrite (processRecord_matched pre post g r gid Hg Hne Hpre Hid).
  split; [reflexivity|]. intros [-> | ->]; reflexivity.
Qed.

Lemma resolveGroupName_cases_witness :
  let groups := [Group.mkGroup (Some 3) (Some "Radiohead");
                 Group.mkGroup (Some 9) (Some "Nirvana");
                 Group.mkGroup (Some 4) None] in
  groupName (processRecord groups Sample.r7) = Some "Nirvana" ∧
  nameGroup (processRecord groups Sample.r7) = Some "Nirvana" ∧
  groupName (processRecord groups empty_record) = Some "" ∧
  groupName (processRecord [Group.mkGroup (Some 3) (Some "Radiohead")] Sample.r7) = Some "" ∧
  groupName (processRecord [Group.mkGroup (Some 9) None] Sample.r7) = Some "".
Proof.
  cbv zeta.
  pose proof (resolveGroupName_cases
                [Group.mkGroup (Some 3) (Some "Radiohead");
                 Group.mkGroup (Some 9) (Some "Nirvana");
                 Group.mkGroup (Some 4) None] Sample.r7) as (Hsame & _ & _ & Hm).
  destruct (Hm 9 [Group.mkGroup (Some 3) (Some "Radiohead")]
              (Group.mkGroup (Some 9) (Some "Nirvana"))
              [Group.mkGroup (Some 4) None]) as [Hname _].
  { reflexivity. } { lia. } { reflexivity. }
  { intros g' Hin. apply list_elem_of_singleton in Hin as ->. cbn. discriminate. }
  { reflexivity. }
  split; [exact Hname|].
  split; [rewrite <- Hsame; exact Hname|].
  split; [|split].
  - destruct (resolveGroupName_cases
                [Group.mkGroup (Some 3) (Some "Radiohead");
                 Group.mkGroup (Some 9) (Some "Nirvana");
                 Group.mkGroup (Some 4) None] empty_record)
      as (_ & Habsent & _).
    apply Habsent. left. reflexivity.
  - destruct (resolveGroupName_cases
                [Group.mkGroup (Some 3) (Some "Radiohead")] Sample.r7)
      as (_ & _ & Hunmatched & _).
    apply (Hunmatched 9).
    + reflexivity.
    + lia.
    + intros g Hin. apply list_elem_of_singleton in Hin as ->. cbn. discriminate.
  - destruct (resolveGroupName_cases [Group.mkGroup (Some 9) None] Sample.r7)
      as (_ & _ & _ & Hfirst).
    destruct (Hfirst 9 [] (Group.mkGroup (Some 9) None) []) as [_ Hfalsy].
    { reflexivity. } { lia. } { reflexivity. }
    { intros g' Hin. by apply not_elem_of_nil in Hin. }
    { reflexivity. }
    apply Hfalsy. left. reflexivity.
Defined.

(* ===================================================================== *)
(** ** Properties: search filter *)
(* ===================================================================== *)

Section SearchFilter.






(** What [filterRecords] does to the state. *)
Lemma filterRecords_effect (st : State) :
  filterRecords st =
  mkEffect (Normal tt)
    (mkState (heap st) (S (next_array st)) (userEmail st) (visibleError st)
       (errorMessage st) (records st)
       (mkArr (next_array st)
          (if negb (opt_test (searchText st) (fun t => truthy (trim t)))
           then arr_elems (records st)
           else List.filter
                  (fun l => matches (toLowerCase (default "" (searchText st)))
                              (heap st !!! l))
                  (arr_elems (records st))))
       (searchText st) (record st) (groups st))
    [].
Proof.
  unfold filterRecords, bind, get. cbn.
  destruct (negb (opt_test (searchText st) (fun t => truthy (trim t))));
    reflexivity.
Qed.

End SearchFilter.



(* ===================================================================== *)
(** ** Properties: cart mutations *)
(* ===================================================================== *)

Section CartMutations.

Variables (st : State) (l : loc) (r : IRecord).
Hypothesis Hobj : heap st !! l = Some r.

Lemma lookup_alter2 (f g : IRecord → IRecord) :
  alter g l (alter f l (heap st)) !! l = Some (g (f r)).
Proof. by rewrite !list_lookup_alter_eq, Hobj. Qed.

Lemma lookup_alter2_ne (f g : IRecord → IRecord) (l' : loc) :
  l' ≠ l → alter g l (alter f l (heap st)) !! l' = heap st !! l'.
Proof. intros Hne. by rewrite !list_lookup_alter_ne. Qed.

Lemma addToCart_next_effect :
  addToCart_next l st =
  mkEffect (Normal tt)
    (set_filteredRecords (mkArr (next_array st) (arr_elems (records st)))
       (set_next_array (S (next_array st))
          (set_heap
             (alter (fun r => with_amount (Some (or_else (amount r) 0 + 1)) r) l
                (alter (with_inCart (Some true)) l (heap st))) st))) [].
Proof. reflexivity. Qed.

Lemma addToCart_error_effect :
  addToCart_error l st =
  mkEffect (Normal tt)
    (set_filteredRecords (mkArr (next_array st) (arr_elems (records st)))
       (set_next_array (S (next_array st))
          (set_heap
             (alter (with_amount (Some 0)) l
                (alter (with_inCart (Some false)) l (heap st))) st))) [].
Proof. reflexivity. Qed.

Lemma removeFromCart_error_effect :
  removeFromCart_error l st =
  mkEffect (Normal tt)
    (set_filteredRecords (mkArr (next_array st) (arr_elems (records st)))
       (set_next_array (S (next_array st))
          (set_heap
             (alter (with_inCart (Some true)) l
                (alter (fun r => with_amount (Some (or_else (amount r) 0 + 1)) r) l
                   (heap st))) st))) [].
Proof. reflexivity. Qed.

End CartMutations.

Lemma or_else_Z_zero (a : Z) : or_else (Some a) 0 = a.
Proof.
  unfold or_else, truthy, truthy_Z. destruct (Z.eqb_spec a 0); [by subst|reflexivity].
Qed.




(** C2.  A failed [addToCart] call leaves the record with [inCart] false and
    [amount] 0 whatever its amount was.  A failed [removeFromCart] call adds
    1 to the record's amount (a missing amount counts as 0) and sets
    [inCart] to true: it does not put back an earlier value, so a record
    with amount 1 ends with amount 2 and [inCart] true.  The remove call is
    issued when a user is signed in and the record is in the cart. *)
Theorem failed_cart_calls
  (st : State) (l : loc) (r : IRecord) (err : Value) :
  heap st !! l = Some r →
  let added := run (resolve (CartService_addToCart l) (Rx.Error err)) st in
  let removed := run (resolve (CartService_removeFromCart l) (Rx.Error err)) st in
  (∃ r1, heap added !! l = Some r1 ∧
         inCart r1 = Some false ∧ amount r1 = Some 0) ∧
  (∃ r2, heap removed !! l = Some r2 ∧
         inCart r2 = Some true ∧
         amount r2 = Some (or_else (amount r) 0 + 1) ∧
         (∀ a, amount r = Some a → amount r2 = Some (a + 1)) ∧
         (amount r = Some 1 → amount r2 = Some 2)) ∧
  (opt_test (userEmail st) truthy = true → inCart r = Some true →
     removeFromCart l st = mkEffect (Normal tt) st [CartService_removeFromCart l]).
Proof.
  intros Hobj. cbv zeta. split; [|split].
  - eexists. unfold run. cbn [resolve Rx.subscribe].
    rewrite addToCart_error_effect. cbn.
    rewrite (lookup_alter2 st l r Hobj). repeat split; reflexivity.
  - eexists. unfold run. cbn [resolve Rx.subscribe].
    rewrite removeFromCart_error_effect. cbn.
    rewrite (lookup_alter2 st l r Hobj). cbn.
    split; [reflexivity|]. split; [reflexivity|]. split; [reflexivity|].
    split.
    + intros a ->. by rewrite or_else_Z_zero.
    + intros ->. reflexivity.
  - intros Huser Hin. unfold removeFromCart, bind, get, read. cbn.
    rewrite Huser. rewrite (list_lookup_total_correct _ _ _ Hobj), Hin. reflexivity.
Qed.

Lemma failed_cart_calls_witness :
  let st1 := run (resolve (CartService_addToCart 1%nat) (Rx.Error Null)) Sample.screen in
  let st2 := run (resolve (CartService_removeFromCart 1%nat) (Rx.Error Null)) Sample.screen in
  amount Sample.r8 = Some 1 ∧
  (amount <$> heap st1 !! 1%nat) = Some (Some 0) ∧
  (inCart <$> heap st1 !! 1%nat) = Some (Some false) ∧
  (amount <$> heap st2 !! 1%nat) = Some (Some 2) ∧
  (inCart <$> heap st2 !! 1%nat) = Some (Some true) ∧
  issued (removeFromCart 1%nat Sample.screen) = [CartService_removeFromCart 1%nat].
Proof.
  cbv zeta.
  destruct (failed_cart_calls Sample.screen 1%nat Sample.r8 Null eq_refl)
    as ((r1 & -> & Hin1 & Ham1) & (r2 & -> & Hin2 & _ & _ & Ham2) & Hcall).
  rewrite (Hcall eq_refl eq_refl).
  cbn. rewrite Hin1, Ham1, Hin2, (Ham2 eq_refl).
  repeat split; reflexivity.
Defined.

(* ===================================================================== *)
(** ** Properties: stock events *)
(* ===================================================================== *)

Section StockEvents.

Variable u : Stock.Update.

Lemma restock_effect (l : loc) (st : State) :
  restock (Stock.recordId u) (Stock.newStock u) l st =
  if bool_decide (idRecord (heap st !!! l) = Some (Stock.recordId u))
  then mkEffect (Normal (length (heap st)))
         (set_heap (heap st ++ [with_stock (Some (Stock.newStock u)) (heap st !!! l)]) st) []
  else mkEffect (Normal l) st [].
Proof.
  unfold restock, bind, read. cbn.
  destruct (bool_decide (idRecord (heap st !!! l) = Some (Stock.recordId u)));
    reflexivity.
Qed.

Lemma mapM_restock (ls : list loc) :
  ∀ (st : State) (h0 ext : list IRecord),
    heap st = (h0 ++ ext)%list →
    Forall (fun l => (l < length h0)%nat) ls →
    ∃ ls' cs,
      mapM (restock (Stock.recordId u) (Stock.newStock u)) ls st =
        mkEffect (Normal ls') (set_heap (heap st ++ cs) st) [] ∧
      Forall2 (restocked u h0 (heap st ++ cs)) ls ls'.
Proof.
  induction ls as [|l ls IH]; intros st h0 ext Hheap Hvalid.
  - exists [], []. cbn. unfold ret. rewrite app_nil_r, set_heap_id. by split.
  - apply Forall_cons in Hvalid as [Hl Hvalid].
    assert (heap st !!! l = h0 !!! l) as Hread.
    { rewrite Hheap. by apply lookup_total_app_l. }
    pose proof (restock_effect l st) as Hstep. rewrite Hread in Hstep.
    cbn [mapM].
    destruct (bool_decide (idRecord (h0 !!! l) = Some (Stock.recordId u))) eqn:Hmatch.
    + set (c := with_stock (Some (Stock.newStock u)) (h0 !!! l)) in *.
      destruct (IH (set_heap (heap st ++ [c]) st) h0 (ext ++ [c])%list)
        as (ls' & cs & Heq & Hrel); [|done|].
      { cbn. rewrite Hheap. by rewrite <- app_assoc. }
      cbn [heap set_heap] in Heq, Hrel.
      replace ((heap st ++ [c]) ++ cs)%list with (heap st ++ c :: cs)%list in Heq, Hrel
        by (by rewrite <- app_assoc).
      exists (length (heap st) :: ls'), (c :: cs).
      rewrite (bind_normal _ _ _ _ _ _ Hstep).
      rewrite (bind_normal _ _ _ _ _ _ Heq). cbn.
      split; [reflexivity|].
      constructor; [|exact Hrel].
      unfold restocked. rewrite Hmatch. split.
      * rewrite Hheap, length_app. lia.
      * by rewrite list_lookup_middle.
    + destruct (IH st h0 ext Hheap Hvalid) as (ls' & cs & Heq & Hrel).
      exists (l :: ls'), cs.
      rewrite (bind_normal _ _ _ _ _ _ Hstep).
      rewrite (bind_normal _ _ _ _ _ _ Heq). cbn.
      split; [reflexivity|].
      constructor; [|exact Hrel].
      unfold restocked. by rewrite Hmatch.
Qed.

Lemma restocked_weaken (h h1 h2 : list IRecord) (l l' : loc) :
  h1 `prefix_of` h2 → restocked u h h1 l l' → restocked u h h2 l l'.
Proof.
  unfold restocked. intros [k ->]. case_bool_decide; [|done].
  intros [Hle Hl]. split; [done|]. by apply lookup_app_l_Some.
Qed.

(** The objects behind the new entries. *)
Lemma restocked_view (h h' : list IRecord) (ls ls' : list loc) :
  h `prefix_of` h' →
  Forall (fun l => (l < length h)%nat) ls →
  Forall2 (restocked u h h') ls ls' →
  map (fun l' => h' !!! l') ls' = map (restock_value u) (map (fun l => h !!! l) ls).
Proof.
  intros [k ->] Hvalid Hrel.
  induction Hrel as [|l l' ls ls' Hl Hrel IH]; [reflexivity|].
  apply Forall_cons in Hvalid as [Hlt Hvalid]. cbn. f_equal; [|by apply IH].
  unfold restocked in Hl. unfold restock_value.
  destruct (bool_decide (idRecord (h !!! l) = Some (Stock.recordId u))).
  - destruct Hl as [_ Hl]. by apply list_lookup_total_correct.
  - subst l'. by apply lookup_total_app_l.
Qed.

Lemma restocked_valid (h h' : list IRecord) (ls ls' : list loc) :
  h `prefix_of` h' →
  Forall (fun l => (l < length h)%nat) ls →
  Forall2 (restocked u h h') ls ls' →
  Forall (fun l' => (l' < length h')%nat) ls'.
Proof.
  intros Hpre Hvalid Hrel.
  induction Hrel as [|l l' ls ls' Hl Hrel IH]; [constructor|].
  apply Forall_cons in Hvalid as [Hlt Hvalid].
  constructor; [|by apply IH].
  unfold restocked in Hl.
  destruct (bool_decide (idRecord (h !!! l) = Some (Stock.recordId u))).
  - destruct Hl as [_ Hl]. by apply lookup_lt_Some in Hl.
  - subst l'. apply prefix_length in Hpre. lia.
Qed.

(** What the subscriber does to the state for a payload. *)
Lemma stockUpdate_effect (st : State) :
  Forall (fun l => (l < length (heap st))%nat) (arr_elems (records st)) →
  Forall (fun l => (l < length (heap st))%nat) (arr_elems (filteredRecords st)) →
  ∃ ls1 ls2 h',
    stockUpdate_next (Some u) st =
      mkEffect (Normal tt)
        (mkState h' (S (S (next_array st))) (userEmail st) (visibleError st)
           (errorMessage st) (mkArr (next_array st) ls1)
           (mkArr (S (next_array st)) ls2) (searchText st) (record st) (groups st))
        [] ∧
    heap st `prefix_of` h' ∧
    Forall2 (restocked u (heap st) h') (arr_elems (records st)) ls1 ∧
    Forall2 (restocked u (heap st) h') (arr_elems (filteredRecords st)) ls2.
Proof.
  intros Hr Hf.
  destruct (mapM_restock (arr_elems (records st)) st (heap st) [])
    as (ls1 & cs1 & Heq1 & Hrel1); [by rewrite app_nil_r|done|].
  set (st1 := set_records (mkArr (next_array st) ls1)
                (set_next_array (S (next_array st)) (set_heap (heap st ++ cs1) st))).
  destruct (mapM_restock (arr_elems (filteredRecords st)) st1 (heap st) cs1)
    as (ls2 & cs2 & Heq2 & Hrel2); [reflexivity|done|].
  exists ls1, ls2, ((heap st ++ cs1) ++ cs2)%list.
  split; [|split; [|split]].
  - unfold stockUpdate_next.
    rewrite (bind_normal get _ st st st [] eq_refl).
    rewrite (bind_normal _ _ _ _ _ _ Heq1).
    rewrite (bind_normal (new_array ls1) _ _ _ _ _ eq_refl).
    rewrite (bind_normal (modify _) _ _ _ _ _ eq_refl).
    fold st1.
    rewrite (bind_normal get _ st1 st1 st1 [] eq_refl).
    change (arr_elems (filteredRecords st1)) with (arr_elems (filteredRecords st)).
    rewrite (bind_normal _ _ _ _ _ _ Heq2).
    reflexivity.
  - rewrite <- app_assoc. by apply prefix_app_r.
  - eapply Forall2_impl; [exact Hrel1|].
    intros l l'. apply restocked_weaken. by apply prefix_app_r.
  - exact Hrel2.
Qed.

End StockEvents.

Section StockSequences.

Lemma restock_value_id (u : Stock.Update) (r : IRecord) :
  idRecord (restock_value u r) = idRecord r.
Proof. unfold restock_value. by case_bool_decide. Qed.

Lemma restock_value_last (u : Stock.Update) (r : IRecord) :
  idRecord (restock_value u r) = Some (Stock.recordId u) →
  stock (restock_value u r) = Some (Stock.newStock u).
Proof. unfold restock_value. case_bool_decide; [done|]. intros; contradiction. Qed.

(** One stock event with a payload. *)
Lemma stock_step (u : Stock.Update) (st : State) :
  wf st →
  let st' := run (handle (StockEmission (Some u))) st in
  wf st' ∧
  heap st `prefix_of` heap st' ∧
  arr_id (records st') = next_array st ∧
  arr_id (filteredRecords st') = S (next_array st) ∧
  Forall2 (restocked u (heap st) (heap st'))
    (arr_elems (records st)) (arr_elems (records st')) ∧
  Forall2 (restocked u (heap st) (heap st'))
    (arr_elems (filteredRecords st)) (arr_elems (filteredRecords st')) ∧
  view st' (records st') = map (restock_value u) (view st (records st)) ∧
  view st' (filteredRecords st') = map (restock_value u) (view st (filteredRecords st)).
Proof.
  intros (Hr & Hf & Hir & Hif). cbv zeta. unfold run. cbn [handle].
  destruct (stockUpdate_effect u st Hr Hf) as (ls1 & ls2 & h' & -> & Hpre & H1 & H2).
  cbn [after]. unfold wf, view. cbn.
  repeat split; try done; try lia.
  - exact (restocked_valid u _ _ _ _ Hpre Hr H1).
  - exact (restocked_valid u _ _ _ _ Hpre Hf H2).
  - exact (restocked_view u _ _ _ _ Hpre Hr H1).
  - exact (restocked_view u _ _ _ _ Hpre Hf H2).
Qed.

Lemma run_all_snoc (evs : list Event) (ev : Event) (st : State) :
  run_all (evs ++ [ev]) st = run (handle ev) (run_all evs st).
Proof. unfold run_all. by rewrite fold_left_app. Qed.

Lemma stock_events_snoc (us : list Stock.Update) (u : Stock.Update) :
  stock_events (us ++ [u]) = (stock_events us ++ [StockEmission (Some u)])%list.
Proof. unfold stock_events. by rewrite map_app. Qed.

(** A run of stock events keeps the state well formed and keeps, position
    by position, the identifiers of the records on screen. *)
Lemma stock_run (us : list Stock.Update) (st : State) :
  wf st →
  let st' := run_all (stock_events us) st in
  wf st' ∧
  map idRecord (view st' (records st')) = map idRecord (view st (records st)) ∧
  map idRecord (view st' (filteredRecords st')) =
    map idRecord (view st (filteredRecords st)).
Proof.
  intros Hwf. cbv zeta.
  induction us as [|u us IH] using rev_ind; [done|].
  rewrite stock_events_snoc, run_all_snoc.
  destruct IH as (Hwf' & Hids & Hids').
  destruct (stock_step u _ Hwf') as (Hwf'' & _ & _ & _ & _ & _ & Hv & Hv').
  split; [exact Hwf''|].
  rewrite Hv, Hv', <- Hids, <- Hids', !map_map.
  split; apply map_ext; intros r; apply restock_value_id.
Qed.

End StockSequences.

(** C7.  A stock emission without payload changes nothing.  One with a
    payload keeps the old objects, and gives [records] and [filteredRecords]
    new arrays in which, position by position, an entry whose [idRecord] is
    the event's is a new object, a copy with the event's stock, and every
    other entry is the reference it was.  After a run of stock events, every
    record on screen whose identifier is that of the last event has the last
    event's stock, and the identifiers on screen are those before the run. *)
Theorem stock_events_spec (st : State) (Hwf : wf st) :
  stockUpdate_next None st = mkEffect (Normal tt) st [] ∧
  (∀ u, let st' := run (handle (StockEmission (Some u))) st in
     heap st `prefix_of` heap st' ∧
     Forall2 (restocked u (heap st) (heap st'))
       (arr_elems (records st)) (arr_elems (records st')) ∧
     Forall2 (restocked u (heap st) (heap st'))
       (arr_elems (filteredRecords st)) (arr_elems (filteredRecords st')) ∧
     view st' (records st') = map (restock_value u) (view st (records st)) ∧
     view st' (filteredRecords st') =
       map (restock_value u) (view st (filteredRecords st))) ∧
  (∀ us u, let st' := run_all (stock_events (us ++ [u])) st in
     map idRecord (view st' (records st')) = map idRecord (view st (records st)) ∧
     map idRecord (view st' (filteredRecords st')) =
       map idRecord (view st (filteredRecords st)) ∧
     ∀ r, r ∈ view st' (records st') ∨ r ∈ view st' (filteredRecords st') →
          idRecord r = Some (Stock.recordId u) →
          stock r = Some (Stock.newStock u)).
Proof.
  split; [reflexivity|]. split.
  - intros u. destruct (stock_step u st Hwf) as (_ & Hpre & _ & _ & H1 & H2 & H3 & H4).
    by repeat split.
  - intros us u. cbv zeta.
    destruct (stock_run (us ++ [u]) st Hwf) as (_ & Hids & Hids').
    split; [exact Hids|]. split; [exact Hids'|].
    rewrite stock_events_snoc, run_all_snoc.
    destruct (stock_run us st Hwf) as (Hwf' & _ & _).
    destruct (stock_step u _ Hwf') as (_ & _ & _ & _ & _ & _ & Hv & Hv').
    intros r Hin Hid. rewrite Hv, Hv' in Hin.
    destruct Hin as [Hin|Hin];
      apply list_elem_of_fmap in Hin as (r0 & -> & _);
      by apply restock_value_last.
Qed.

Lemma screen_wf : wf Sample.screen.
Proof.
  unfold wf. cbn. repeat split; try lia; repeat constructor.
Qed.

Lemma stock_events_spec_witness :
  let st' := run_all (stock_events [Stock.mkUpdate 7 5; Stock.mkUpdate 7 3]) Sample.screen in
  map idRecord (view st' (records st')) = [Some 7; Some 8] ∧
  (∀ r, r ∈ view st' (records st') → idRecord r = Some 7 → stock r = Some 3) ∧
  map stock (view st' (records st')) = [Some 3; Some 1] ∧
  map stock (view st' (filteredRecords st')) = [Some 3; Some 1].
Proof.
  cbv zeta.
  destruct (stock_events_spec Sample.screen screen_wf) as (_ & _ & Hlast).
  destruct (Hlast [Stock.mkUpdate 7 5] (Stock.mkUpdate 7 3)) as (Hids & _ & Hstock).
  split; [exact Hids|].
  split; [intros r Hin; apply Hstock; by left|].
  split; reflexivity.
Defined.

(* ===================================================================== *)
(** ** Properties: fetch completion and cart events *)
(* ===================================================================== *)

Section Fetch.

Variable groups : list Group.IGroup.

(** The [map] of the fetch continuation allocates one object per entry. *)
Lemma mapM_process (ls : list loc) :
  ∀ st : State, ∃ cs,
    mapM (fun l => let* r := read l in alloc (processRecord groups r)) ls st =
      mkEffect (Normal (seq (length (heap st)) (length ls)))
        (set_heap (heap st ++ cs) st) [] ∧
    length cs = length ls ∧
    (∀ h0 ext, heap st = (h0 ++ ext)%list →
       Forall (fun l => (l < length h0)%nat) ls →
       cs = map (fun l => processRecord groups (h0 !!! l)) ls).
Proof.
  induction ls as [|l ls IH]; intros st.
  - exists []. cbn. unfold ret. rewrite app_nil_r, set_heap_id. by repeat split.
  - set (c := processRecord groups (heap st !!! l)).
    destruct (IH (set_heap (heap st ++ [c]) st)) as (cs & Heq & Hlen & Hcs).
    exists (c :: cs). cbn [mapM].
    assert ((let* r := read l in alloc (processRecord groups r)) st =
            mkEffect (Normal (length (heap st))) (set_heap (heap st ++ [c]) st) [])
      as Hstep by reflexivity.
    rewrite (bind_normal _ _ _ _ _ _ Hstep).
    rewrite (bind_normal _ _ _ _ _ _ Heq). cbn.
    rewrite length_app, <- app_assoc. cbn.
    replace (length (heap st) + 1)%nat with (S (length (heap st))) by lia.
    split; [reflexivity|]. split; [by rewrite Hlen|].
    intros h0 ext Hheap Hvalid. apply Forall_cons in Hvalid as [Hl Hvalid].
    f_equal.
    + unfold c. rewrite Hheap. f_equal. by apply lookup_total_app_l.
    + apply (Hcs h0 (ext ++ [c])%list); [|done].
      cbn. by rewrite Hheap, <- app_assoc.
Qed.

End Fetch.

(** What the fetch continuation does to the state. *)
Lemma getRecords_groups_next_effect (recordsArray : Arr) (groupsResponse : Value)
    (st : State) :
  ∃ gs cs,
    getRecords_groups groupsResponse = Normal gs ∧
    getRecords_groups_next recordsArray groupsResponse st =
      mkEffect (Normal tt)
        (mkState (heap st ++ cs) (S (S (next_array st))) (userEmail st)
           (visibleError st) (errorMessage st)
           (mkArr (next_array st)
              (seq (length (heap st)) (length (arr_elems recordsArray))))
           (mkArr (S (next_array st))
              (seq (length (heap st)) (length (arr_elems recordsArray))))
           (searchText st) (record st) (RecordsComponent.groups st))
        [] ∧
    length cs = length (arr_elems recordsArray) ∧
    (Forall (fun l => (l < length (heap st))%nat) (arr_elems recordsArray) →
     cs = map (fun l => processRecord (map as_IGroup gs) (heap st !!! l))
            (arr_elems recordsArray)).
Proof.
  destruct (nested_total groupsResponse) as [gs Hgs].
  destruct (mapM_process (map as_IGroup gs) (arr_elems recordsArray) st)
    as (cs & Heq & Hlen & Hcs).
  exists gs, cs. split; [exact Hgs|]. split; [|split; [exact Hlen|]].
  - unfold getRecords_groups_next.
    assert (lift (getRecords_groups groupsResponse) st = mkEffect (Normal gs) st [])
      as Hlift by (unfold lift; by rewrite Hgs).
    rewrite (bind_normal _ _ _ _ _ _ Hlift).
    rewrite (bind_normal _ _ _ _ _ _ Heq).
    reflexivity.
  - intros Hvalid. apply (Hcs (heap st) []); [by rewrite app_nil_r|done].
Qed.

Lemma seq_valid (n k m : nat) :
  (n + k ≤ m)%nat → Forall (fun l => (l < m)%nat) (seq n k).
Proof.
  intros Hle. apply Forall_forall. intros l Hin.
  apply list_elem_of_In, in_seq in Hin. lia.
Qed.

(** What the cart subscriber does to the state. *)
Lemma cart_next_effect (cartItems : list Cart.Item) (st : State) :
  cart_next cartItems st =
  mkEffect (Normal tt)
    (mkState
       (fold_left (fun h l => alter (reconcile cartItems) l h)
          (arr_elems (records st)) (heap st))
       (S (next_array st)) (userEmail st) (visibleError st) (errorMessage st)
       (records st) (mkArr (next_array st) (arr_elems (records st)))
       (searchText st) (record st) (groups st))
    [].
Proof.
  unfold cart_next.
  rewrite (bind_normal get _ st st st [] eq_refl).
  rewrite (bind_normal _ _ _ _ _ _ (forEach_mutate _ _ _)).
  reflexivity.
Qed.

(** *** The invariant *)

Section Quiet.

Lemma grows_refl (st : State) : grows st st.
Proof. by repeat split. Qed.

Lemma grows_trans (st1 st2 st3 : State) :
  grows st1 st2 → grows st2 st3 → grows st1 st3.
Proof.
  intros (Hr & Hf & Hh & Hn) (Hr' & Hf' & Hh' & Hn').
  repeat split; try congruence; lia.
Qed.

Lemma grows_wf (st st' : State) : grows st st' → wf st → wf st'.
Proof.
  intros (Hr & Hf & Hh & Hn) (Hvr & Hvf & Hir & Hif). unfold wf.
  rewrite Hr, Hf. repeat split; try lia; eapply Forall_impl; eauto; cbn; lia.
Qed.

Lemma quiet_ret {A} (a : A) : quiet (ret a).
Proof. intros st. apply grows_refl. Qed.

Lemma quiet_lift {A} (c : Completion A) : quiet (lift c).
Proof. intros st. apply grows_refl. Qed.

Lemma quiet_get : quiet get.
Proof. intros st. apply grows_refl. Qed.

Lemma quiet_request (rq : Request) : quiet (request rq).
Proof. intros st. apply grows_refl. Qed.

Lemma quiet_read (l : loc) : quiet (read l).
Proof. intros st. apply grows_refl. Qed.

Lemma quiet_alloc (r : IRecord) : quiet (alloc r).
Proof. intros st. repeat split; cbn; [rewrite length_app|]; lia. Qed.

Lemma quiet_mutate (l : loc) (f : IRecord → IRecord) : quiet (mutate l f).
Proof. intros st. repeat split; cbn; [rewrite length_alter|]; lia. Qed.

Lemma quiet_new_array (elems : list loc) : quiet (new_array elems).
Proof. intros st. repeat split; cbn; lia. Qed.

Lemma quiet_modify (f : State → State) :
  (∀ st, grows st (f st)) → quiet (modify f).
Proof. intros Hf st. apply Hf. Qed.

Lemma quiet_bind {A B} (m : M A) (k : A → M B) :
  quiet m → (∀ a, quiet (k a)) → quiet (bind m k).
Proof.
  intros Hm Hk st. unfold bind.
  destruct (completion (m st)) as [a|e] eqn:Hc; cbn.
  - eapply grows_trans; [apply Hm|apply Hk].
  - apply Hm.
Qed.

Lemma quiet_mapM {A B} (f : A → M B) (xs : list A) :
  (∀ x, quiet (f x)) → quiet (mapM f xs).
Proof.
  intros Hf. induction xs as [|x xs IH]; cbn [mapM]; [apply quiet_ret|].
  apply quiet_bind; [apply Hf|]. intros y.
  apply quiet_bind; [apply IH|]. intros ys. apply quiet_ret.
Qed.

Lemma quiet_forEach {A} (f : A → M unit) (xs : list A) :
  (∀ x, quiet (f x)) → quiet (forEach f xs).
Proof.
  intros Hf. induction xs as [|x xs IH]; cbn [forEach]; [apply quiet_ret|].
  apply quiet_bind; [apply Hf|]. intros _. apply IH.
Qed.

End Quiet.

Ltac quiet :=
  repeat first
    [ apply quiet_ret | apply quiet_lift | apply quiet_get | apply quiet_request
    | apply quiet_read | apply quiet_alloc | apply quiet_mutate
    | apply quiet_new_array
    | apply quiet_modify; intros ?; apply grows_refl
    | apply quiet_mapM; intros ?
    | apply quiet_forEach; intros ?
    | apply quiet_bind; [|intros ?]
    | match goal with |- quiet (if ?b then _ else _) => destruct b end
    | match goal with |- quiet (match ?o with Some _ => _ | None => _ end) => destruct o end ].

Section Invariant.

Lemma initial_wf (email : option string) : wf (initial email).
Proof. unfold wf. cbn. repeat split; try lia; constructor. Qed.

Lemma wf_republish (st : State) (h : list IRecord) :
  (length (heap st) ≤ length h)%nat → wf st →
  wf (mkState h (S (next_array st)) (userEmail st) (visibleError st)
        (errorMessage st) (records st)
        (mkArr (next_array st) (arr_elems (records st)))
        (searchText st) (record st) (groups st)).
Proof.
  intros Hlen (Hr & Hf & Hir & Hif). unfold wf. cbn.
  repeat split; try lia; eapply Forall_impl; eauto; cbn; lia.
Qed.

Lemma quiet_getRecords_next (data : Value) : quiet (getRecords_next data).
Proof. unfold getRecords_next, seedStock. quiet. Qed.

Lemma quiet_record_gateway (rq : Request) (http : Rx.Notification Value) :
  record_gateway_call rq → quiet (resolve rq http).
Proof.
  destruct rq; cbn; intros []; destruct http; cbn [Rx.subscribe];
    try apply quiet_getRecords_next;
    unfold getRecords_error, save_addRecord_next, save_addRecord_error,
      save_updateRecord_next, save_updateRecord_error, deleteRecord_next,
      deleteRecord_error, cancelEdition, getRecords, controlError; quiet.
Qed.

Lemma filterRecords_wf (st : State) : wf st → wf (after (filterRecords st)).
Proof.
  intros (Hvr & Hvf & Hir & Hif). rewrite filterRecords_effect.
  unfold wf. cbn. repeat split; try done; try lia.
  destruct (negb _); [done|].
  apply Forall_forall. intros l Hl.
  apply list_elem_of_In, filter_In in Hl as [Hl _].
  apply list_elem_of_In in Hl. by apply (proj1 (Forall_forall _ _) Hvr).
Qed.

(** Every handler keeps the state well formed. *)
Theorem wf_invariant (ev : Event) (st : State) :
  wf st → wf (run (handle ev) st).
Proof.
  intros Hwf. unfold run.
  destruct ev as [[u|]|cartItems|rq http|text| |id|l|l]; cbn [handle].
  - by destruct (stock_step u st Hwf) as [H _].
  - exact Hwf.
  - rewrite cart_next_effect. cbn [after].
    apply (wf_republish st); [|done]. cbn; by rewrite fold_alter_length.
  - destruct rq as [|r|r|id|[recordsArray|]|id k|l|l].
    + eapply grows_wf; [by apply quiet_record_gateway|done].
    + eapply grows_wf; [by apply quiet_record_gateway|done].
    + eapply grows_wf; [by apply quiet_record_gateway|done].
    + eapply grows_wf; [by apply quiet_record_gateway|done].
    + cbn [resolve]. destruct (getGroups_delivers http) as [gs ->].
      cbn [Rx.subscribe].
      destruct (getRecords_groups_next_effect recordsArray gs st)
        as (gl & cs & _ & -> & Hlen & _).
      destruct Hwf as (Hr & Hf & Hir & Hif). unfold wf. cbn.
      repeat split; try lia; apply seq_valid; rewrite length_app; lia.
    + cbn [resolve]. destruct (getGroups_delivers http) as [gs ->].
      cbn [Rx.subscribe]. eapply grows_wf; [|done].
      unfold getGroups_next. quiet.
    + exact Hwf.
    + cbn [resolve]. destruct http; cbn [Rx.subscribe].
      * rewrite addToCart_next_effect. apply (wf_republish st); [|done].
        cbn; by rewrite !length_alter.
      * rewrite addToCart_error_effect. apply (wf_republish st); [|done].
        cbn; by rewrite !length_alter.
    + cbn [resolve]. destruct http; cbn [Rx.subscribe].
      * apply (wf_republish st); [|done]. cbn; by rewrite !length_alter.
      * rewrite removeFromCart_error_effect. apply (wf_republish st); [|done].
        cbn; by rewrite !length_alter.
  - apply (filterRecords_wf (set_searchText text st)). exact Hwf.
  - eapply grows_wf; [|done]. unfold save. quiet.
  - exact Hwf.
  - eapply grows_wf; [|done]. unfold addToCart. quiet.
  - eapply grows_wf; [|done]. unfold removeFromCart. quiet.
Qed.

(** Every state the screen reaches is well formed. *)
Corollary reachable_wf (email : option string) (evs : list Event) :
  wf (run_all evs (initial email)).
Proof.
  induction evs as [|ev evs IH] using rev_ind; [apply initial_wf|].
  rewrite run_all_snoc. by apply wf_invariant.
Qed.

End Invariant.

Section Published.

Lemma lookup_fresh_block (h cs : list IRecord) :
  map (fun l => (h ++ cs)%list !!! l) (seq (length h) (length cs)) = cs.
Proof.
  revert h. induction cs as [|c cs IH]; intros h; [reflexivity|].
  cbn [length seq map]. f_equal.
  - apply list_lookup_total_correct. by rewrite list_lookup_middle.
  - specialize (IH (h ++ [c])%list).
    rewrite length_app, <- app_assoc in IH. cbn in IH.
    replace (length h + 1)%nat with (S (length h)) in IH by lia. exact IH.
Qed.

(** The records published by a fetch are the processed copies of the
    payload's records, in order. *)
Lemma fetch_publishes (recordsArray : Arr) (groupsResponse : Value) (st : State) :
  Forall (fun l => (l < length (heap st))%nat) (arr_elems recordsArray) →
  ∃ gs, getRecords_groups groupsResponse = Normal gs ∧
    let st' := run (getRecords_groups_next recordsArray groupsResponse) st in
    view st' (records st') =
      map (processRecord (map as_IGroup gs)) (view st recordsArray) ∧
    arr_elems (filteredRecords st') = arr_elems (records st').
Proof.
  intros Hvalid.
  destruct (getRecords_groups_next_effect recordsArray groupsResponse st)
    as (gs & cs & Hgs & Heq & Hlen & Hcs).
  exists gs. split; [exact Hgs|]. cbv zeta. unfold run. rewrite Heq.
  unfold view. cbn. split; [|reflexivity].
  rewrite <- Hlen, lookup_fresh_block, (Hcs Hvalid). by rewrite map_map.
Qed.

End Published.

(** The scenario of section 8: records [{$values: [{idRecord: 1,
    titleRecord: "A", groupId: 9, stock: 2}]}], groups
    [{$values: [{idGroup: 9, nameGroup: "Rock"}]}]. *)
Example fetch_scenario :
  let st1 := run (handle (Resolved RecordsService_getRecords
                            (Rx.Next (values_wrapper [Sample.album])))) (initial None) in
  let st2 := run (handle (Resolved (GroupsService_getGroups (AssignNames (mkArr 2 [0%nat])))
                            (Rx.Next (values_wrapper [Sample.rock])))) st1 in
  issued (handle (Resolved RecordsService_getRecords
                    (Rx.Next (values_wrapper [Sample.album]))) (initial None)) =
    [StockService_updateStock 1 2;
     GroupsService_getGroups (AssignNames (mkArr 2 [0%nat]))] ∧
  map (fun r => (idRecord r, groupName r, nameGroup r, stock r)) (view st2 (records st2)) =
    [(Some 1, Some "Rock", Some "Rock", Some 2)].
Proof. split; reflexivity. Qed.



(* ===================================================================== *)
(** ** Properties: error reporting *)
(* ===================================================================== *)

Section ControlError.

Variables (err body : Value).
Hypothesis Hbody : member err "error" = Normal body.

Lemma controlError_structured (props : list (string * Value)) (m : Value) :
  body = Object props → own "message" props = Some m → truthy m = true →
  controlError_message err = Normal m.
Proof.
  intros -> Hm Ht. unfold controlError_message. rewrite Hbody. cbn.
  rewrite Hm. cbn. rewrite Ht. reflexivity.
Qed.

Lemma controlError_string (s : string) :
  body = Str s → controlError_message err = Normal (Str s).
Proof.
  intros ->. unfold controlError_message. rewrite Hbody. cbn.
  destruct (truthy s); reflexivity.
Qed.

Lemma controlError_generic :
  (∀ props, body = Object props →
     truthy (default Undefined (own "message" props)) = false) →
  (∀ s, body ≠ Str s) →
  controlError_message err = Normal (Str "An unexpected error has occurred").
Proof.
  intros Hobj Hstr. unfold controlError_message. rewrite Hbody.
  destruct body as [| |b|n|s|elems|props]; cbn; try reflexivity.
  - destruct b; reflexivity.
  - destruct (truthy n); reflexivity.
  - destruct (Hstr s eq_refl).
  - rewrite (Hobj props eq_refl). reflexivity.
Qed.

End ControlError.

Lemma record_gateway_error (rq : Request) (err : Value) (st : State) :
  record_gateway_call rq →
  resolve rq (Rx.Error err) st =
    (modify (set_visibleError true) ;; controlError err)%M st.
Proof. destruct rq; cbn; intros []; reflexivity. Qed.

(** C5, as the spec words it, fails for the cart and for the group gateway:
    a failed [addToCart] and a failed group fetch leave [visibleError] false
    and [errorMessage] as it was. *)
Lemma cart_and_group_failures_are_not_reported :
  let err := Object [("error", Object [("message", Str "Service unavailable")])] in
  let st1 :=
    run (handle (Resolved (CartService_addToCart 1%nat) (Rx.Error err)))
      Sample.screen in
  let st2 :=
    run (handle (Resolved (GroupsService_getGroups LoadGroups) (Rx.Error err)))
      Sample.screen in
  visibleError Sample.screen = false ∧
  ¬ (visibleError st1 = true) ∧ errorMessage st1 = Str "" ∧
  ¬ (visibleError st2 = true) ∧ errorMessage st2 = Str "".
Proof. cbn. repeat split; try reflexivity; discriminate. Qed.

(** C5 (amended).  A transport error of a record gateway call (fetch, add,
    update, delete) sets [visibleError] and, when the payload is not null or
    undefined, stores in [errorMessage] the message chosen by [controlError]:
    the [message] of an object body when it is truthy, else a string body
    itself, else the fixed text; the handler issues no call (no retry).  A
    failed cart call and a failed group fetch (of [getGroups] and of the
    fetch nested in [getRecords]) change neither [visibleError] nor
    [errorMessage]; the failed group fetch issues no call either. *)
Theorem transport_error_reporting (st : State) (err : Value) :
  (∀ rq, record_gateway_call rq →
     visibleError (run (resolve rq (Rx.Error err)) st) = true ∧
     issued (resolve rq (Rx.Error err) st) = []) ∧
  (∀ rq body, record_gateway_call rq → member err "error" = Normal body →
     ∃ m, controlError_message err = Normal m ∧
       run (resolve rq (Rx.Error err)) st = set_errorMessage m (set_visibleError true st) ∧
       completion (resolve rq (Rx.Error err) st) = Normal tt ∧
       (∀ props x, body = Object props → own "message" props = Some x →
          truthy x = true → m = x) ∧
       (∀ s, body = Str s → m = Str s) ∧
       ((∀ props, body = Object props →
           truthy (default Undefined (own "message" props)) = false) →
        (∀ s, body ≠ Str s) → m = Str "An unexpected error has occurred")) ∧
  (∀ l,
     let added := run (resolve (CartService_addToCart l) (Rx.Error err)) st in
     let removed := run (resolve (CartService_removeFromCart l) (Rx.Error err)) st in
     visibleError added = visibleError st ∧
     errorMessage added = errorMessage st ∧
     visibleError removed = visibleError st ∧
     errorMessage removed = errorMessage st) ∧
  (∀ k,
     let fetched := resolve (GroupsService_getGroups k) (Rx.Error err) st in
     visibleError (after fetched) = visibleError st ∧
     errorMessage (after fetched) = errorMessage st ∧
     issued fetched = []).
Proof.
  split; [|split; [|split]].
  - intros rq Hrq. unfold run. rewrite (record_gateway_error rq err st Hrq).
    unfold controlError. cbn. destruct (controlError_message err); split; reflexivity.
  - intros rq body Hrq Hbody.
    assert (∃ m, controlError_message err = Normal m) as [m Hm].
    { unfold controlError_message. rewrite Hbody. cbn.
      destruct body as [| |b|n|s|elems|props]; cbn; eauto.
      - destruct b; cbn; eauto.
      - destruct (truthy n); cbn; eauto.
      - destruct (truthy s); cbn; eauto.
      - destruct (truthy (default Undefined (own "message" props))); cbn; eauto. }
    exists m. split; [exact Hm|].
    unfold run. rewrite (record_gateway_error rq err st Hrq).
    unfold controlError. cbn. rewrite Hm. cbn.
    split; [reflexivity|]. split; [reflexivity|].
    split; [|split].
    + intros props x Hb Hx Ht.
      pose proof (controlError_structured err body Hbody props x Hb Hx Ht). congruence.
    + intros s Hb. pose proof (controlError_string err body Hbody s Hb). congruence.
    + intros Hobj Hstr. pose proof (controlError_generic err body Hbody Hobj Hstr). congruence.
  - intros l. cbn. repeat split; reflexivity.
  - intros [recordsArray|]; cbv zeta; cbn [resolve GroupsService.getGroups
      Rx.map Rx.catchError Rx.of_ Rx.subscribe].
    + destruct (getRecords_groups_next_effect recordsArray (Array []) st)
        as (gs & cs & _ & -> & _).
      repeat split; reflexivity.
    + repeat split; reflexivity.
Qed.

Lemma transport_error_reporting_witness :
  let err := Object [("error", Object [("message", Str "Service unavailable")])] in
  let st := run (resolve (RecordsService_deleteRecord 7) (Rx.Error err)) Sample.screen in
  visibleError st = true ∧ errorMessage st = Str "Service unavailable" ∧
  errorMessage (run (resolve RecordsService_getRecords
                       (Rx.Error (Object [("error", Str "Bad gateway")]))) Sample.screen)
    = Str "Bad gateway" ∧
  errorMessage (run (resolve RecordsService_getRecords
                       (Rx.Error (Object [("status", Number 0)]))) Sample.screen)
    = Str "An unexpected error has occurred".
Proof.
  cbv zeta.
  destruct (transport_error_reporting Sample.screen
              (Object [("error", Object [("message", Str "Service unavailable")])]))
    as (Hflag & Hmsg & _).
  destruct (Hmsg (RecordsService_deleteRecord 7)
              (Object [("message", Str "Service unavailable")]) I eq_refl)
    as (m & _ & Hrun & _ & Hstructured & _).
  rewrite (Hstructured _ (Str "Service unavailable") eq_refl eq_refl eq_refl) in Hrun.
  split; [apply (Hflag (RecordsService_deleteRecord 7) I)|].
  split; [rewrite Hrun; reflexivity|].
  split.
  - destruct (transport_error_reporting Sample.screen (Object [("error", Str "Bad gateway")]))
      as (_ & Hmsg' & _).
    destruct (Hmsg' RecordsService_getRecords (Str "Bad gateway") I eq_refl)
      as (m' & _ & Hrun' & _ & _ & Hstring & _).
    rewrite (Hstring _ eq_refl) in Hrun'. rewrite Hrun'. reflexivity.
  - destruct (transport_error_reporting Sample.screen (Object [("status", Number 0)]))
      as (_ & Hmsg' & _).
    destruct (Hmsg' RecordsService_getRecords Undefined I eq_refl)
      as (m' & _ & Hrun' & _ & _ & _ & Hgeneric).
    rewrite Hgeneric in Hrun'; [rewrite Hrun'; reflexivity| |];
      intros; discriminate.
Defined.


(* ===================================================================== *)
(** ** Further properties: the cart channel and the cart calls *)
(* ===================================================================== *)

Section CartSnapshot.

Variable cartItems : list Cart.Item.

Lemma reconcile_overrides (a : option Z) (b : option bool) (r : IRecord) :
  reconcile cartItems (with_amount a (with_inCart b r)) = reconcile cartItems r.
Proof. by destruct r. Qed.

Lemma reconcile_idem (r : IRecord) :
  reconcile cartItems (reconcile cartItems r) = reconcile cartItems r.
Proof. by destruct r. Qed.

(** Updating in place the objects of a list of references, with an update
    that does nothing the second time. *)
Lemma fold_alter_lookup (f : IRecord → IRecord) (ls : list loc)
    (h : list IRecord) (l : loc) :
  (∀ r, f (f r) = f r) →
  fold_left (fun h l => alter f l h) ls h !! l =
  if bool_decide (l ∈ ls) then f <$> h !! l else h !! l.
Proof.
  intros Hidem. revert h. induction ls as [|a ls IH]; intros h; [done|].
  cbn [fold_left]. rewrite IH.
  destruct (decide (a = l)) as [->|Hne].
  - rewrite list_lookup_alter_eq.
    rewrite (bool_decide_eq_true_2 (l ∈ l :: ls)) by left.
    case_bool_decide; [|done].
    destruct (h !! l); cbn; [by rewrite Hidem|done].
  - rewrite list_lookup_alter_ne by done.
    case_bool_decide as Hin.
    + by rewrite bool_decide_eq_true_2 by (by right).
    + rewrite bool_decide_eq_false_2; [done|].
      intros Hin'. apply elem_of_cons in Hin' as [->|?]; done.
Qed.

(** The objects on screen after a cart emission that arrives in a state
    whose store is that of [st] with the object [l] changed by [f], when
    [f] changes nothing that the reconciliation reads. *)
Lemma cart_next_view (st st2 : State) (l : loc) (f : IRecord → IRecord) :
  wf st → records st2 = records st → heap st2 = alter f l (heap st) →
  (∀ r, reconcile cartItems (f r) = reconcile cartItems r) →
  let st' := after (cart_next cartItems st2) in
  view st' (records st') = map (reconcile cartItems) (view st (records st)).
Proof.
  intros (Hvr & _) Hrec Hheap Hf. cbv zeta. rewrite cart_next_effect.
  unfold view. cbn. rewrite Hrec, Hheap, map_map.
  apply map_ext_in. intros l' Hin.
  apply list_elem_of_In in Hin.
  assert (l' < length (heap st))%nat as Hlt
    by (by apply (proj1 (Forall_forall _ _) Hvr)).
  destruct (lookup_lt_is_Some_2 _ _ Hlt) as [r Hr].
  apply list_lookup_total_correct.
  rewrite fold_alter_lookup by apply reconcile_idem.
  rewrite bool_decide_eq_true_2 by done.
  rewrite (list_lookup_total_correct _ _ _ Hr).
  destruct (decide (l = l')) as [->|Hne].
  - rewrite list_lookup_alter_eq, Hr. cbn. by rewrite Hf.
  - by rewrite list_lookup_alter_ne, Hr.
Qed.

Lemma reconcile_inCart (r : IRecord) :
  inCart (reconcile cartItems r) = Some true ↔
  ∃ item, item ∈ cartItems ∧ Some (Cart.idRecord item) = idRecord r.
Proof.
  unfold reconcile. cbn.
  destruct (List.find _ cartItems) as [item|] eqn:Hfind.
  - apply find_some in Hfind as [Hin Hid].
    apply bool_decide_eq_true in Hid. apply list_elem_of_In in Hin.
    split; [intros _; by exists item|by intros _].
  - split.
    + intros [=].
    + intros (item & Hin & Hid). apply list_elem_of_In in Hin.
      pose proof (find_none _ _ Hfind item Hin) as Hno. cbn in Hno.
      apply bool_decide_eq_false in Hno. contradiction.
Qed.

Lemma reconcile_absent (r : IRecord) :
  inCart (reconcile cartItems r) = Some true ∨
  (inCart (reconcile cartItems r) = Some false ∧
   amount (reconcile cartItems r) = Some 0).
Proof.
  unfold reconcile. cbn. destruct (List.find _ cartItems); [by left|by right].
Qed.

End CartSnapshot.

Lemma cart_next_filtered (cartItems : list Cart.Item) (st : State) :
  view (after (cart_next cartItems st)) (filteredRecords (after (cart_next cartItems st))) =
  view (after (cart_next cartItems st)) (records (after (cart_next cartItems st))).
Proof. rewrite cart_next_effect. reflexivity. Qed.

Lemma reconcile_amount (pre post : list Cart.Item) (item : Cart.Item) (r : IRecord) :
  (∀ i, i ∈ pre → Some (Cart.idRecord i) ≠ idRecord r) →
  Some (Cart.idRecord item) = idRecord r →
  amount (reconcile (pre ++ item :: post) r) = Some (or_else (Cart.amount item) 0).
Proof.
  intros Hpre Hid. unfold reconcile. cbn.
  rewrite (find_first_match _ pre post item); [done| |].
  - intros i Hi. apply bool_decide_eq_false. by apply Hpre.
  - by apply bool_decide_eq_true.
Qed.

(** X1.  After a cart emission, in a well-formed state, every record on
    screen is marked from the snapshot alone: [inCart] is true exactly when
    the snapshot has an item with the record's [idRecord], [amount] is the
    amount of the first such item (0 when that amount is missing or 0) and 0
    when there is none; [filteredRecords] shows the objects of [records],
    and objects that [records] does not hold are not touched. *)
Theorem cart_snapshot_marks_records (st : State) (cartItems : list Cart.Item) :
  wf st →
  let st' := run (handle (CartEmission cartItems)) st in
  view st' (records st') = map (reconcile cartItems) (view st (records st)) ∧
  view st' (filteredRecords st') = view st' (records st') ∧
  (∀ l, l ∉ arr_elems (records st) → heap st' !! l = heap st !! l) ∧
  ∀ r, r ∈ view st' (records st') →
    (inCart r = Some true ↔
       ∃ item, item ∈ cartItems ∧ Some (Cart.idRecord item) = idRecord r) ∧
    (inCart r = Some true ∨ (inCart r = Some false ∧ amount r = Some 0)) ∧
    (∀ (pre : list Cart.Item) item post,
       cartItems = (pre ++ item :: post)%list →
       (∀ i, i ∈ pre → Some (Cart.idRecord i) ≠ idRecord r) →
       Some (Cart.idRecord item) = idRecord r →
       amount r = Some (or_else (Cart.amount item) 0)).
Proof.
  intros Hwf. cbv zeta. unfold run. cbn [handle].
  assert (view (after (cart_next cartItems st)) (records (after (cart_next cartItems st)))
          = map (reconcile cartItems) (view st (records st))) as Hview.
  { apply (cart_next_view cartItems st st 0%nat id); try done.
    by rewrite list_alter_id. }
  split; [exact Hview|]. split; [|split].
  - rewrite cart_next_effect. reflexivity.
  - intros l Hl. rewrite cart_next_effect. cbn.
    rewrite fold_alter_lookup by apply reconcile_idem.
    by rewrite bool_decide_eq_false_2.
  - intros r Hr. rewrite Hview in Hr.
    apply list_elem_of_In, in_map_iff in Hr as (r0 & <- & _).
    rewrite <- (reconcile_idem cartItems r0).
    set (r := reconcile cartItems r0).
    split; [|split].
    + apply reconcile_inCart.
    + apply reconcile_absent.
    + intros pre item post -> Hpre Hid. by apply reconcile_amount.
Qed.

Lemma cart_snapshot_marks_records_witness :
  let st' := run (handle (CartEmission [Cart.mkItem 7 None; Cart.mkItem 7 (Some 4)]))
               Sample.screen in
  map (fun r => (idRecord r, inCart r, amount r)) (view st' (filteredRecords st')) =
    [(Some 7, Some true, Some 0); (Some 8, Some false, Some 0)].
Proof.
  cbv zeta.
  destruct (cart_snapshot_marks_records Sample.screen
              [Cart.mkItem 7 None; Cart.mkItem 7 (Some 4)] screen_wf)
    as (Hview & -> & _).
  rewrite Hview. reflexivity.
Defined.

Section CartContinuations.

Variables (st : State) (l : loc).

Lemma removeFromCart_next_effect :
  removeFromCart_next l st =
  mkEffect (Normal tt)
    (set_filteredRecords (mkArr (next_array st) (arr_elems (records st)))
       (set_next_array (S (next_array st))
          (set_heap
             (alter (fun r => with_inCart
                                (Some (opt_test (amount r) (fun a => (0 <? a)%Z))) r) l
                (alter (fun r => with_amount
                                   (Some (Z.max 0 (or_else (amount r) 0 - 1))) r) l
                   (heap st))) st))) [].
Proof. reflexivity. Qed.

(** Each of the four continuations of a cart call changes, in the store,
    only [inCart] and [amount] of its record. *)
Lemma cart_continuation_effect (rq : Request) (http : Rx.Notification Value) :
  rq = CartService_addToCart l ∨ rq = CartService_removeFromCart l →
  ∃ f : IRecord → IRecord,
    (∀ r, ∃ a b, f r = with_amount a (with_inCart b r)) ∧
    heap (after (resolve rq http st)) = alter f l (heap st) ∧
    records (after (resolve rq http st)) = records st.
Proof.
  intros [-> | ->]; destruct http as [response|err]; cbn [resolve Rx.subscribe].
  - rewrite addToCart_next_effect. cbn. eexists. split; [|split; [|done]].
    2: by rewrite list_alter_alter_eq.
    intros r. eexists _, _. cbn. by destruct r.
  - rewrite addToCart_error_effect. cbn. eexists. split; [|split; [|done]].
    2: by rewrite list_alter_alter_eq.
    intros r. eexists _, _. cbn. by destruct r.
  - rewrite removeFromCart_next_effect. cbn. eexists. split; [|split; [|done]].
    2: by rewrite list_alter_alter_eq.
    intros r. eexists _, _. cbn. by destruct r.
  - rewrite removeFromCart_error_effect. cbn. eexists. split; [|split; [|done]].
    2: by rewrite list_alter_alter_eq.
    intros r. eexists _, _. cbn. by destruct r.
Qed.

End CartContinuations.

(** X2.  A cart emission overrides what a cart call's continuation wrote:
    whichever continuation of [addToCart] or [removeFromCart] ran (success
    or failure, on any record), the records on screen after the next cart
    emission are those that the emission alone would have produced. *)
Theorem cart_snapshot_overrides_local_marks
  (st : State) (l : loc) (rq : Request) (http : Rx.Notification Value)
  (cartItems : list Cart.Item) :
  wf st →
  rq = CartService_addToCart l ∨ rq = CartService_removeFromCart l →
  let st1 := run (handle (CartEmission cartItems)) st in
  let st2 := run_all [Resolved rq http; CartEmission cartItems] st in
  view st2 (records st2) = view st1 (records st1) ∧
  view st2 (filteredRecords st2) = view st1 (filteredRecords st1).
Proof.
  intros Hwf Hrq. cbv zeta. unfold run_all, run. cbn [fold_left handle].
  destruct (cart_continuation_effect st l rq http Hrq) as (f & Hf & Hheap & Hrec).
  assert (∀ r, reconcile cartItems (f r) = reconcile cartItems r) as Hover.
  { intros r. destruct (Hf r) as (a & b & ->). apply reconcile_overrides. }
  pose proof (cart_next_view cartItems st _ l f Hwf Hrec Hheap Hover) as H2.
  pose proof (cart_next_view cartItems st st 0%nat id Hwf eq_refl
                (eq_sym (list_alter_id _ _ _ (fun _ => eq_refl))) (fun _ => eq_refl)) as H1.
  cbv zeta in H1, H2.
  rewrite !cart_next_filtered. by rewrite H1, H2.
Qed.

Lemma cart_snapshot_overrides_local_marks_witness :
  let st2 := run_all [Resolved (CartService_addToCart 0%nat) (Rx.Next Null);
                      CartEmission [Cart.mkItem 8 (Some 3)]] Sample.screen in
  map (fun r => (idRecord r, inCart r, amount r)) (view st2 (records st2)) =
    [(Some 7, Some false, Some 0); (Some 8, Some true, Some 3)].
Proof.
  cbv zeta.
  destruct (cart_snapshot_overrides_local_marks Sample.screen 0%nat
              (CartService_addToCart 0%nat) (Rx.Next Null)
              [Cart.mkItem 8 (Some 3)] screen_wf (or_introl eq_refl)) as [-> _].
  reflexivity.
Defined.

(** X3.  A confirmed [removeFromCart] leaves the record with an amount that
    is never negative (one less than before, 0 when it was missing, 0 or
    negative) and with [inCart] true exactly when that amount is positive;
    an amount of 1 ends at 0 with [inCart] false.  Other objects and
    [records] are unchanged and [filteredRecords] is republished. *)
Theorem confirmed_remove (st : State) (l : loc) (r : IRecord) (response : Value) :
  heap st !! l = Some r →
  let e := resolve (CartService_removeFromCart l) (Rx.Next response) st in
  completion e = Normal tt ∧ issued e = [] ∧
  (∃ r' a', heap (after e) !! l = Some r' ∧ amount r' = Some a' ∧
     a' = Z.max 0 (or_else (amount r) 0 - 1) ∧ (0 ≤ a')%Z ∧
     (inCart r' = Some true ↔ (0 < a')%Z) ∧
     (inCart r' = Some false ↔ a' = 0) ∧
     (amount r = Some 1 → a' = 0 ∧ inCart r' = Some false) ∧
     idRecord r' = idRecord r ∧ stock r' = stock r) ∧
  (∀ l', l' ≠ l → heap (after e) !! l' = heap st !! l') ∧
  records (after e) = records st ∧
  filteredRecords (after e) = mkArr (next_array st) (arr_elems (records st)).
Proof.
  intros Hobj. cbv zeta. cbn [resolve Rx.subscribe].
  rewrite removeFromCart_next_effect. cbn.
  split; [done|]. split; [done|]. split; [|split; [|done]].
  - rewrite (lookup_alter2 st l r Hobj). eexists _, _.
    split; [reflexivity|]. cbn. split; [reflexivity|]. split; [reflexivity|].
    assert (amount r = Some 1 → Z.max 0 (or_else (amount r) 0 - 1) = 0) as Hone
      by (by intros ->).
    set (a' := Z.max 0 (or_else (amount r) 0 - 1)) in *.
    destruct (Z.ltb_spec 0 a') as [Hpos|Hzero].
    all: repeat split; try done; try lia.
    all: try (intros [=]).
    all: try (intros Ha; specialize (Hone Ha); lia).
    all: match goal with H : amount _ = Some 1 |- _ => specialize (Hone H); lia end.
  - intros l' Hne. by apply lookup_alter2_ne.
Qed.

Lemma confirmed_remove_witness :
  let st' := run (resolve (CartService_removeFromCart 1%nat) (Rx.Next Null)) Sample.screen in
  (amount <$> heap st' !! 1%nat) = Some (Some 0) ∧
  (inCart <$> heap st' !! 1%nat) = Some (Some false) ∧
  heap st' !! 0%nat = Some Sample.r7.
Proof.
  cbv zeta.
  destruct (confirmed_remove Sample.screen 1%nat Sample.r8 Null eq_refl)
    as (_ & _ & (r' & a' & Hr' & Ha' & _ & _ & _ & _ & Hone & _) & Hother & _).
  destruct (Hone eq_refl) as [-> Hin].
  unfold run. rewrite Hr', (Hother 0%nat) by lia. cbn. rewrite Ha', Hin.
  repeat split; reflexivity.
Defined.

Section RoundTrip.

Variables (st : State) (l : loc) (r : IRecord).
Hypothesis Hobj : heap st !! l = Some r.

Lemma add_then_remove_object (resp1 resp2 : Value) :
  heap (run_all [Resolved (CartService_addToCart l) (Rx.Next resp1);
                 Resolved (CartService_removeFromCart l) (Rx.Next resp2)] st) !! l =
  Some (with_inCart (Some (0 <? Z.max 0 (or_else (amount r) 0 + 1 - 1))%Z)
          (with_amount (Some (Z.max 0 (or_else (amount r) 0 + 1 - 1))) r)).
Proof.
  unfold run_all, run. cbn [fold_left handle resolve Rx.subscribe].
  rewrite addToCart_next_effect. cbn [after].
  rewrite removeFromCart_next_effect. cbn.
  rewrite !list_lookup_alter_eq, Hobj.
  unfold fmap, option_fmap, option_map. cbv beta. destruct r.
  cbn [with_amount with_inCart amount inCart idRecord titleRecord
       yearOfPublication imageRecord photo photoName price stock discontinued
       groupId groupName nameGroup opt_test].
  by rewrite ?or_else_Z_zero.
Qed.

Lemma remove_then_add_object (resp1 resp2 : Value) :
  heap (run_all [Resolved (CartService_removeFromCart l) (Rx.Next resp1);
                 Resolved (CartService_addToCart l) (Rx.Next resp2)] st) !! l =
  Some (with_amount (Some (Z.max 0 (or_else (amount r) 0 - 1) + 1))
          (with_inCart (Some true) r)).
Proof.
  unfold run_all, run. cbn [fold_left handle resolve Rx.subscribe].
  rewrite removeFromCart_next_effect. cbn [after].
  rewrite addToCart_next_effect. cbn.
  rewrite !list_lookup_alter_eq, Hobj.
  unfold fmap, option_fmap, option_map. cbv beta. destruct r.
  cbn [with_amount with_inCart amount inCart idRecord titleRecord
       yearOfPublication imageRecord photo photoName price stock discontinued
       groupId groupName nameGroup opt_test].
  by rewrite ?or_else_Z_zero.
Qed.

End RoundTrip.

(** X4.  A confirmed [addToCart] followed by a confirmed [removeFromCart]
    of the same record restores an amount that was not negative (a missing
    amount comes back as 0) and leaves [inCart] true exactly when that
    amount is positive.  In the other order the amount is restored only when
    it was at least 1: an amount of 0, or a missing one, ends at 1, and
    [inCart] is true in every case. *)
Theorem add_remove_round_trip
  (st : State) (l : loc) (r : IRecord) (resp1 resp2 : Value) :
  heap st !! l = Some r →
  let st1 := run_all [Resolved (CartService_addToCart l) (Rx.Next resp1);
                      Resolved (CartService_removeFromCart l) (Rx.Next resp2)] st in
  let st2 := run_all [Resolved (CartService_removeFromCart l) (Rx.Next resp1);
                      Resolved (CartService_addToCart l) (Rx.Next resp2)] st in
  (∃ r1, heap st1 !! l = Some r1 ∧
     (∀ a, amount r = Some a → (0 ≤ a)%Z →
        amount r1 = Some a ∧ (inCart r1 = Some true ↔ (0 < a)%Z)) ∧
     (amount r = None → amount r1 = Some 0 ∧ inCart r1 = Some false)) ∧
  (∃ r2, heap st2 !! l = Some r2 ∧ inCart r2 = Some true ∧
     (∀ a, amount r = Some a → (1 ≤ a)%Z → amount r2 = Some a) ∧
     (amount r = None ∨ amount r = Some 0 → amount r2 = Some 1)).
Proof.
  intros Hobj. cbv zeta. split.
  - eexists. split; [by apply add_then_remove_object|]. cbn. split.
    + intros a -> Ha. rewrite or_else_Z_zero.
      replace (Z.max 0 (a + 1 - 1)) with a by lia.
      split; [done|]. destruct (Z.ltb_spec 0 a); split; (done || lia || intros [=]).
    + intros ->. done.
  - eexists. split; [by apply remove_then_add_object|]. cbn.
    split; [done|]. split.
    + intros a -> Ha. rewrite or_else_Z_zero. f_equal. lia.
    + intros [-> | ->]; done.
Qed.

Lemma add_remove_round_trip_witness :
  let st1 := run_all [Resolved (CartService_addToCart 1%nat) (Rx.Next Null);
                      Resolved (CartService_removeFromCart 1%nat) (Rx.Next Null)]
               Sample.screen in
  let st2 := run_all [Resolved (CartService_removeFromCart 0%nat) (Rx.Next Null);
                      Resolved (CartService_addToCart 0%nat) (Rx.Next Null)]
               Sample.screen in
  (amount <$> heap st1 !! 1%nat) = Some (Some 1) ∧
  (amount <$> heap st2 !! 0%nat) = Some (Some 1).
Proof.
  cbv zeta.
  destruct (add_remove_round_trip Sample.screen 1%nat Sample.r8 Null Null eq_refl)
    as ((r1 & -> & Hsome & _) & _).
  destruct (add_remove_round_trip Sample.screen 0%nat Sample.r7 Null Null eq_refl)
    as (_ & (r2 & -> & _ & _ & Hnone)).
  destruct (Hsome 1 eq_refl ltac:(lia)) as [Hone _].
  cbn. rewrite Hone, (Hnone (or_introl eq_refl)).
  split; reflexivity.
Defined.

(** X5.  The guards of the two cart commands: neither command ever changes
    the state; [addToCart] issues the cart call exactly when a non-empty
    user email is present, and [removeFromCart] exactly when, in addition,
    the record's [inCart] is true; otherwise nothing is issued. *)
Theorem cart_command_guards (st : State) (l : loc) :
  let signed_in := opt_test (userEmail st) truthy in
  let in_cart := opt_test (inCart (heap st !!! l)) truthy in
  after (addToCart l st) = st ∧ after (removeFromCart l st) = st ∧
  completion (addToCart l st) = Normal tt ∧
  completion (removeFromCart l st) = Normal tt ∧
  issued (addToCart l st) =
    (if signed_in then [CartService_addToCart l] else []) ∧
  issued (removeFromCart l st) =
    (if signed_in && in_cart then [CartService_removeFromCart l] else []) ∧
  (userEmail st = None ∨ userEmail st = Some "" → signed_in = false) ∧
  (inCart (heap st !!! l) = None ∨ inCart (heap st !!! l) = Some false →
     in_cart = false).
Proof.
  cbv zeta. unfold addToCart, removeFromCart, bind, get, read. cbn.
  destruct (opt_test (userEmail st) truthy) eqn:Hu; cbn.
  - destruct (opt_test (inCart (heap st !!! l)) truthy) eqn:Hc; cbn.
    + repeat split; try done.
      * intros [H|H]; rewrite H in Hu; done.
      * intros [H|H]; rewrite H in Hc; done.
    + repeat split; try done. intros [H|H]; rewrite H in Hu; done.
  - repeat split; try done.
    intros [H|H]; rewrite H; done.
Qed.

Lemma cart_command_guards_witness :
  issued (removeFromCart 0%nat Sample.screen) = [] ∧
  issued (removeFromCart 1%nat Sample.screen) = [CartService_removeFromCart 1%nat] ∧
  issued (addToCart 0%nat (set_userEmail (Some "") Sample.screen)) = [].
Proof.
  destruct (cart_command_guards Sample.screen 0%nat) as (_ & _ & _ & _ & _ & H0 & _ & Hc).
  destruct (cart_command_guards Sample.screen 1%nat) as (_ & _ & _ & _ & _ & H1 & _).
  destruct (cart_command_guards (set_userEmail (Some "") Sample.screen) 0%nat)
    as (_ & _ & _ & _ & H2 & _ & Hu & _).
  cbv zeta in *.
  rewrite H0, H1, H2, (Hc (or_introl eq_refl)), (Hu (or_intror eq_refl)).
  rewrite andb_false_r. repeat split; reflexivity.
Defined.

(* ===================================================================== *)
(** ** Further properties: the record fetch *)
(* ===================================================================== *)

Section FetchStart.







End FetchStart.


Section FetchEnd.


Lemma processRecord_no_groups (r : IRecord) :
  groupName (processRecord [] r) = Some "" ∧ nameGroup (processRecord [] r) = Some "".
Proof. unfold processRecord. cbn. by destruct (or_null (groupId r)). Qed.

(** The fetch continuation as the component runs it: on what the service
    delivers. *)
Lemma fetch_completion (recordsArray : Arr) (http : Rx.Notification Value)
    (st : State) :
  Forall (fun l => (l < length (heap st))%nat) (arr_elems recordsArray) →
  ∃ response gs,
    GroupsService.getGroups http = Rx.Next response ∧
    getRecords_groups response = Normal gs ∧
    let e := resolve (GroupsService_getGroups (AssignNames recordsArray)) http st in
    completion e = Normal tt ∧ issued e = [] ∧
    visibleError (after e) = visibleError st ∧
    view (after e) (records (after e)) =
      map (processRecord (map as_IGroup gs)) (view st recordsArray) ∧
    arr_elems (filteredRecords (after e)) = arr_elems (records (after e)).
Proof.
  intros Hvalid. destruct (getGroups_delivers http) as [response Hresp].
  destruct (fetch_publishes recordsArray response st Hvalid) as (gs & Hgs & Hview & Hf).
  exists response, gs. split; [exact Hresp|]. split; [exact Hgs|].
  cbv zeta in *. unfold run in *. cbn [resolve]. rewrite Hresp. cbn [Rx.subscribe].
  destruct (getRecords_groups_next_effect recordsArray response st)
    as (gs' & cs & _ & Heq & _).
  split; [by rewrite Heq|]. split; [by rewrite Heq|]. split; [by rewrite Heq|].
  by split.
Qed.

End FetchEnd.



(** X8.  When the transport fails for the group fetch nested in
    [getRecords], the records are published all the same, as processed
    copies of the payload records with [groupName] and [nameGroup] empty;
    no error is shown and nothing is retried. *)
Theorem failed_group_fetch_publishes_blank_names
  (recordsArray : Arr) (err : Value) (st : State) :
  Forall (fun l => (l < length (heap st))%nat) (arr_elems recordsArray) →
  let e := resolve (GroupsService_getGroups (AssignNames recordsArray))
             (Rx.Error err) st in
  completion e = Normal tt ∧ issued e = [] ∧
  visibleError (after e) = visibleError st ∧
  view (after e) (records (after e)) = map (processRecord []) (view st recordsArray) ∧
  arr_elems (filteredRecords (after e)) = arr_elems (records (after e)) ∧
  ∀ r, r ∈ view (after e) (records (after e)) →
       groupName r = Some "" ∧ nameGroup r = Some "".
Proof.
  intros Hvalid. cbv zeta.
  destruct (fetch_completion recordsArray (Rx.Error err) st Hvalid)
    as (response & gs & Hresp & Hgs & Hc & Hi & Hv & Hview & Hf).
  rewrite getGroups_transport_failure in Hresp. injection Hresp as <-.
  cbn in Hgs. injection Hgs as <-. cbv zeta in *. cbn [map] in Hview.
  repeat split; try done.
  - rewrite Hview in H. apply list_elem_of_In, in_map_iff in H as (r0 & <- & _).
    apply processRecord_no_groups.
  - rewrite Hview in H. apply list_elem_of_In, in_map_iff in H as (r0 & <- & _).
    apply processRecord_no_groups.
Qed.

Lemma failed_group_fetch_publishes_blank_names_witness :
  let st' := run (resolve (GroupsService_getGroups (AssignNames (mkArr 5 [1%nat])))
                    (Rx.Error Null)) Sample.screen in
  map (fun r => (idRecord r, groupId r, groupName r)) (view st' (records st')) =
    [(Some 8, Some 3, Some "")] ∧
  visibleError st' = false.
Proof.
  cbv zeta.
  assert (Forall (fun l => (l < length (heap Sample.screen))%nat)
            (arr_elems (mkArr 5 [1%nat]))) as Hvalid
    by (repeat constructor).
  destruct (failed_group_fetch_publishes_blank_names (mkArr 5 [1%nat]) Null
              Sample.screen Hvalid) as (_ & _ & Hv & Hview & _).
  unfold run. rewrite Hview, Hv. split; reflexivity.
Defined.

Section GroupsEndToEnd.




End GroupsEndToEnd.

(** X9.  End to end, the three encodings of a group list are
    indistinguishable: whether the transport sends the bare sequence, the
    [$values] wrapper or the [data] wrapper, both subscriptions of the
    component (the fetch nested in [getRecords] and [getGroups]) end in the
    same state, and [getGroups] stores the list itself in [groups]. *)
Theorem group_encodings_end_to_end
  (l : list Value) (k : GroupsCallback) (st : State) :
  resolve (GroupsService_getGroups k) (Rx.Next (values_wrapper l)) st =
    resolve (GroupsService_getGroups k) (Rx.Next (bare l)) st ∧
  resolve (GroupsService_getGroups k) (Rx.Next (data_wrapper l)) st =
    resolve (GroupsService_getGroups k) (Rx.Next (bare l)) st ∧
  groups (after (resolve (GroupsService_getGroups LoadGroups)
                   (Rx.Next (data_wrapper l)) st)) = l.
Proof. by destruct k. Qed.


Section ProcessRecord.

Variable groups : list Group.IGroup.

Lemma or_else_idem {A} `{Truthy A} (o : option A) (d : A) :
  or_else (Some (or_else o d)) d = or_else o d.
Proof.
  unfold or_else. destruct o as [a|]; [|by destruct (truthy d)].
  destruct (truthy a) eqn:Ha; [by rewrite Ha|by destruct (truthy d)].
Qed.

Lemma or_null_idem {A} `{Truthy A} (o : option A) : or_null (or_null o) = or_null o.
Proof.
  unfold or_null. destruct o as [a|]; [|done].
  destruct (truthy a) eqn:Ha; [by rewrite Ha|done].
Qed.

Lemma processRecord_idem (r : IRecord) :
  processRecord groups (processRecord groups r) = processRecord groups r.
Proof.
  unfold processRecord.
  cbn [groupId idRecord titleRecord yearOfPublication imageRecord photo
       photoName price stock discontinued].
  destruct (or_null (groupId r)) as [gid|] eqn:Hg.
  - assert (or_null (Some gid) = Some gid) as Hgid
      by (by rewrite <- Hg, or_null_idem).
    destruct (List.find _ groups) as [g|] eqn:Hfind;
      cbn [with_nameGroup with_groupName groupId idRecord titleRecord
           yearOfPublication imageRecord photo photoName price stock
           discontinued];
      rewrite !or_else_idem, !or_null_idem, Hgid;
      cbn [groupId]; by rewrite Hfind.
  - cbn [groupId idRecord titleRecord yearOfPublication imageRecord photo
         photoName price stock discontinued].
    by rewrite !or_else_idem, !or_null_idem.
Qed.

End ProcessRecord.

(** X11.  The processing of a fetched record reads only the ten payload
    properties that it copies: the names and the cart marks that the payload
    carries are ignored.  Its result always has [idRecord], [titleRecord],
    [price], [stock], [discontinued] and both names, has no cart marks, has
    neither 0 nor the empty string among its optional properties, and is
    unchanged by a second processing with the same groups. *)
Theorem processRecord_normalises (groups : list Group.IGroup) (r : IRecord) :
  let p := processRecord groups r in
  processRecord groups p = p ∧
  (∀ gn ng ic am,
     processRecord groups
       (with_amount am (with_inCart ic (with_nameGroup ng (with_groupName gn r)))) = p) ∧
  is_Some (idRecord p) ∧ is_Some (titleRecord p) ∧ is_Some (price p) ∧
  is_Some (stock p) ∧ is_Some (discontinued p) ∧
  is_Some (groupName p) ∧ is_Some (nameGroup p) ∧
  inCart p = None ∧ amount p = None ∧
  yearOfPublication p ≠ Some 0 ∧ groupId p ≠ Some 0 ∧
  imageRecord p ≠ Some "" ∧ photoName p ≠ Some "".
Proof.
  cbv zeta. split; [apply processRecord_idem|]. split; [by destruct r|].
  assert (∀ o : option Z, or_null o ≠ Some 0) as HZ.
  { intros [z|]; cbn; [|done]. unfold truthy, truthy_Z.
    destruct (Z.eqb_spec z 0) as [->|]; cbn; congruence. }
  assert (∀ o : option string, or_null o ≠ Some "") as HS.
  { intros [[|c x]|]; by cbn. }
  unfold processRecord. cbn [groupId].
  destruct (or_null (groupId r)) as [gid|] eqn:Hg;
    [destruct (List.find _ groups)|]; cbn; rewrite ?Hg;
    repeat split; try done; try apply HZ; try apply HS.
  all: by rewrite <- Hg.
Qed.

(* ===================================================================== *)
(** ** Further properties: stock events *)
(* ===================================================================== *)

Section StockAlgebra.

Lemma restock_value_comm (u1 u2 : Stock.Update) (r : IRecord) :
  Stock.recordId u1 ≠ Stock.recordId u2 →
  restock_value u1 (restock_value u2 r) = restock_value u2 (restock_value u1 r).
Proof.
  intros Hne. unfold restock_value. destruct r. cbn.
  repeat (case_bool_decide; cbn in *); try done; congruence.
Qed.

Lemma restock_value_idem (u : Stock.Update) (r : IRecord) :
  restock_value u (restock_value u r) = restock_value u r.
Proof.
  unfold restock_value. destruct r. cbn.
  repeat (case_bool_decide; cbn in *); try done; congruence.
Qed.

Lemma restock_value_keeps (u : Stock.Update) (r : IRecord) :
  with_stock (stock r) (restock_value u r) = r.
Proof. unfold restock_value. case_bool_decide; by destruct r. Qed.

(** The records on screen after two stock events. *)
Lemma stock_two_views (u1 u2 : Stock.Update) (st : State) :
  wf st →
  let st' := run_all (stock_events [u1; u2]) st in
  view st' (records st') =
    map (restock_value u2) (map (restock_value u1) (view st (records st))) ∧
  view st' (filteredRecords st') =
    map (restock_value u2) (map (restock_value u1) (view st (filteredRecords st))).
Proof.
  intros Hwf. cbv zeta. unfold run_all, stock_events. cbn [map fold_left].
  destruct (stock_step u1 st Hwf) as (Hwf1 & _ & _ & _ & _ & _ & Hv1 & Hf1).
  destruct (stock_step u2 _ Hwf1) as (_ & _ & _ & _ & _ & _ & Hv2 & Hf2).
  cbv zeta in *. by rewrite Hv2, Hf2, Hv1, Hf1.
Qed.

End StockAlgebra.

(** X12.  Stock events for different records commute, and an event applied
    twice is the event applied once: in a well-formed state the records
    shown by [records] and by [filteredRecords] after the events [u1], [u2]
    are those after [u2], [u1] when the two identifiers differ, and those
    after [u], [u] are those after [u].  A stock event changes no property
    of a record but [stock]. *)
Theorem stock_events_commute (st : State) (u1 u2 : Stock.Update) :
  wf st →
  let shown := fun s => (view s (records s), view s (filteredRecords s)) in
  (Stock.recordId u1 ≠ Stock.recordId u2 →
     shown (run_all (stock_events [u1; u2]) st) =
     shown (run_all (stock_events [u2; u1]) st)) ∧
  shown (run_all (stock_events [u1; u1]) st) =
    shown (run_all (stock_events [u1]) st) ∧
  Forall2 (fun r r' => with_stock (stock r) r' = r)
    (view st (records st))
    (view (run_all (stock_events [u1]) st) (records (run_all (stock_events [u1]) st))).
Proof.
  intros Hwf. cbv zeta.
  destruct (stock_two_views u1 u2 st Hwf) as [H12 H12'].
  destruct (stock_two_views u2 u1 st Hwf) as [H21 H21'].
  destruct (stock_two_views u1 u1 st Hwf) as [H11 H11'].
  destruct (stock_step u1 st Hwf) as (_ & _ & _ & _ & _ & _ & Hv1 & Hf1).
  cbv zeta in *.
  split; [|split].
  - intros Hne. rewrite H12, H12', H21, H21', !map_map.
    f_equal; apply map_ext; intros r; by apply restock_value_comm.
  - rewrite H11, H11'. unfold run_all, stock_events. cbn [map fold_left].
    rewrite Hv1, Hf1, !map_map.
    f_equal; apply map_ext; intros r; apply restock_value_idem.
  - unfold run_all, stock_events. cbn [map fold_left]. rewrite Hv1.
    generalize (view st (records st)). intros rs.
    induction rs as [|r rs IH]; cbn; constructor; [apply restock_value_keeps|done].
Qed.

Lemma stock_events_commute_witness :
  let st1 := run_all (stock_events [Stock.mkUpdate 7 5; Stock.mkUpdate 8 0]) Sample.screen in
  let st2 := run_all (stock_events [Stock.mkUpdate 8 0; Stock.mkUpdate 7 5]) Sample.screen in
  view st1 (records st1) = view st2 (records st2) ∧
  map stock (view st1 (filteredRecords st1)) = [Some 5; Some 0].
Proof.
  cbv zeta.
  destruct (stock_events_commute Sample.screen (Stock.mkUpdate 7 5) (Stock.mkUpdate 8 0)
              screen_wf) as (Hcomm & _).
  assert (Stock.recordId (Stock.mkUpdate 7 5) ≠ Stock.recordId (Stock.mkUpdate 8 0))
    as Hne by (cbn; lia).
  specialize (Hcomm Hne).
  split; [exact (f_equal fst Hcomm)|reflexivity].
Defined.

Section StockRanges.

Variable u : Stock.Update.

(** Where the copies made by one [map] of the stock subscriber live: after
    everything that the store held when the [map] began. *)
Lemma mapM_restock_range (ls : list loc) :
  ∀ (st : State) (h0 ext : list IRecord),
    heap st = (h0 ++ ext)%list →
    Forall (fun l => (l < length h0)%nat) ls →
    ∃ ls' cs,
      mapM (restock (Stock.recordId u) (Stock.newStock u)) ls st =
        mkEffect (Normal ls') (set_heap (heap st ++ cs) st) [] ∧
      Forall2 (fun l l' =>
                 if bool_decide (idRecord (h0 !!! l) = Some (Stock.recordId u))
                 then (length (heap st) ≤ l' < length (heap st) + length cs)%nat
                 else l' = l) ls ls'.
Proof.
  induction ls as [|l ls IH]; intros st h0 ext Hheap Hvalid.
  - exists [], []. cbn. unfold ret. rewrite app_nil_r, set_heap_id. by split.
  - apply Forall_cons in Hvalid as [Hl Hvalid].
    assert (heap st !!! l = h0 !!! l) as Hread.
    { rewrite Hheap. by apply lookup_total_app_l. }
    pose proof (restock_effect u l st) as Hstep. rewrite Hread in Hstep.
    cbn [mapM].
    destruct (bool_decide (idRecord (h0 !!! l) = Some (Stock.recordId u))) eqn:Hmatch.
    + set (c := with_stock (Some (Stock.newStock u)) (h0 !!! l)) in *.
      destruct (IH (set_heap (heap st ++ [c]) st) h0 (ext ++ [c])%list)
        as (ls' & cs & Heq & Hrel); [|done|].
      { cbn. rewrite Hheap. by rewrite <- app_assoc. }
      cbn [heap set_heap] in Heq, Hrel.
      replace ((heap st ++ [c]) ++ cs)%list with (heap st ++ c :: cs)%list in Heq
        by (by rewrite <- app_assoc).
      exists (length (heap st) :: ls'), (c :: cs).
      rewrite (bind_normal _ _ _ _ _ _ Hstep).
      rewrite (bind_normal _ _ _ _ _ _ Heq). cbn.
      split; [reflexivity|].
      constructor.
      * rewrite Hmatch. lia.
      * eapply Forall2_impl; [exact Hrel|]. intros x y. cbn.
        destruct (bool_decide (idRecord (h0 !!! x) = _)); [|done].
        rewrite length_app. cbn. lia.
    + destruct (IH st h0 ext Hheap Hvalid) as (ls' & cs & Heq & Hrel).
      exists (l :: ls'), cs.
      rewrite (bind_normal _ _ _ _ _ _ Hstep).
      rewrite (bind_normal _ _ _ _ _ _ Heq). cbn.
      split; [reflexivity|].
      constructor; [by rewrite Hmatch|exact Hrel].
Qed.

(** The two [map] calls of one stock event copy into disjoint parts of the
    store: every entry of the new [records] lies before [m], every copy in
    the new [filteredRecords] at or after [m]. *)
Lemma stockUpdate_ranges (st : State) :
  Forall (fun l => (l < length (heap st))%nat) (arr_elems (records st)) →
  Forall (fun l => (l < length (heap st))%nat) (arr_elems (filteredRecords st)) →
  ∃ ls1 ls2 h' m,
    stockUpdate_next (Some u) st =
      mkEffect (Normal tt)
        (mkState h' (S (S (next_array st))) (userEmail st) (visibleError st)
           (errorMessage st) (mkArr (next_array st) ls1)
           (mkArr (S (next_array st)) ls2) (searchText st) (record st) (groups st))
        [] ∧
    (length (heap st) ≤ m)%nat ∧
    Forall (fun l' => (l' < m)%nat) ls1 ∧
    Forall2 (fun l l' =>
               if bool_decide (idRecord (heap st !!! l) = Some (Stock.recordId u))
               then (m ≤ l')%nat else l' = l)
      (arr_elems (filteredRecords st)) ls2.
Proof.
  intros Hr Hf.
  destruct (mapM_restock_range (arr_elems (records st)) st (heap st) [])
    as (ls1 & cs1 & Heq1 & Hrel1); [by rewrite app_nil_r|done|].
  set (st1 := set_records (mkArr (next_array st) ls1)
                (set_next_array (S (next_array st)) (set_heap (heap st ++ cs1) st))).
  destruct (mapM_restock_range (arr_elems (filteredRecords st)) st1 (heap st) cs1)
    as (ls2 & cs2 & Heq2 & Hrel2); [reflexivity|done|].
  exists ls1, ls2, ((heap st ++ cs1) ++ cs2)%list, (length (heap st ++ cs1)).
  split; [|split; [|split]].
  - unfold stockUpdate_next.
    rewrite (bind_normal get _ st st st [] eq_refl).
    rewrite (bind_normal _ _ _ _ _ _ Heq1).
    rewrite (bind_normal (new_array ls1) _ _ _ _ _ eq_refl).
    rewrite (bind_normal (modify _) _ _ _ _ _ eq_refl).
    fold st1.
    rewrite (bind_normal get _ st1 st1 st1 [] eq_refl).
    change (arr_elems (filteredRecords st1)) with (arr_elems (filteredRecords st)).
    rewrite (bind_normal _ _ _ _ _ _ Heq2).
    reflexivity.
  - rewrite length_app. lia.
  - clear Heq1 Heq2 Hrel2. rewrite length_app.
    induction Hrel1 as [|l l' ls ls' Hl Hrel IH]; [constructor|].
    apply Forall_cons in Hr as [Hlt Hr].
    constructor; [|by apply IH].
    destruct (bool_decide (idRecord (heap st !!! l) = _)); [lia|]. subst l'. lia.
  - eapply Forall2_impl; [exact Hrel2|]. intros l l'. cbn.
    destruct (bool_decide (idRecord (heap st !!! l) = _)); [|done]. lia.
Qed.

End StockRanges.

(** X13.  A stock event separates the two arrays, and a cart update made
    through the displayed object is then lost.  When [records] and
    [filteredRecords] hold the same object for the record of a stock event,
    they hold afterwards two different objects with the same content.  A
    confirmed [addToCart] for the object that [filteredRecords] holds
    updates that object, but republishes [filteredRecords] from [records]:
    the updated object is no longer shown, and every object shown is as it
    was before the call. *)
Theorem stock_event_separates_arrays
  (st : State) (u : Stock.Update) (i j : nat) (l : loc) (response : Value) :
  wf st →
  arr_elems (records st) !! i = Some l →
  arr_elems (filteredRecords st) !! j = Some l →
  idRecord (heap st !!! l) = Some (Stock.recordId u) →
  let st1 := run (handle (StockEmission (Some u))) st in
  ∃ l1 l2 copy,
    arr_elems (records st1) !! i = Some l1 ∧
    arr_elems (filteredRecords st1) !! j = Some l2 ∧
    l1 ≠ l2 ∧
    copy = with_stock (Some (Stock.newStock u)) (heap st !!! l) ∧
    heap st1 !! l1 = Some copy ∧ heap st1 !! l2 = Some copy ∧
    let st2 := run (handle (Resolved (CartService_addToCart l2) (Rx.Next response)))
                 st1 in
    heap st2 !! l2 =
      Some (with_amount (Some (or_else (amount copy) 0 + 1))
              (with_inCart (Some true) copy)) ∧
    arr_elems (filteredRecords st2) = arr_elems (records st1) ∧
    (l2 ∉ arr_elems (filteredRecords st2)) ∧
    ∀ l', l' ∈ arr_elems (filteredRecords st2) → heap st2 !! l' = heap st1 !! l'.
Proof.
  intros Hwf Hi Hj Hid. pose proof Hwf as (Hr & Hf & _).
  destruct (stockUpdate_effect u st Hr Hf) as (ls1 & ls2 & h' & Heq & Hpre & H1 & H2).
  destruct (stockUpdate_ranges u st Hr Hf) as (ls1' & ls2' & h'' & m & Heq' & Hm & Hlt & Hge).
  rewrite Heq in Heq'. injection Heq' as <- <- <-.
  cbv zeta. unfold run. cbn [handle resolve Rx.subscribe]. rewrite !Heq.
  cbn [after].
  set (st1 := mkState h' _ _ _ _ _ _ _ _ _).
  destruct (Forall2_lookup_l _ _ _ _ _ H1 Hi) as (l1 & Hl1 & Hc1).
  destruct (Forall2_lookup_l _ _ _ _ _ H2 Hj) as (l2 & Hl2 & Hc2).
  destruct (Forall2_lookup_l _ _ _ _ _ Hge Hj) as (l2' & Hl2' & Hm2).
  rewrite Hl2 in Hl2'. injection Hl2' as <-.
  unfold restocked in Hc1, Hc2.
  rewrite (bool_decide_eq_true_2 _ Hid) in Hc1, Hc2, Hm2.
  destruct Hc1 as [_ Hc1]. destruct Hc2 as [_ Hc2].
  assert (l1 < m)%nat as Hl1m.
  { apply (proj1 (Forall_forall _ _) Hlt). by eapply list_elem_of_lookup_2. }
  exists l1, l2, (with_stock (Some (Stock.newStock u)) (heap st !!! l)).
  split; [exact Hl1|]. split; [exact Hl2|]. split; [lia|].
  split; [reflexivity|]. split; [exact Hc1|]. split; [exact Hc2|].
  rewrite addToCart_next_effect.
  subst st1.
  cbn [after heap set_heap set_next_array set_filteredRecords filteredRecords
       records arr_elems].
  split; [|split; [reflexivity|split]].
  - by rewrite !list_lookup_alter_eq, Hc2.
  - intros Hin. apply (proj1 (Forall_forall _ _) Hlt) in Hin. lia.
  - intros l' Hin. apply (proj1 (Forall_forall _ _) Hlt) in Hin.
    rewrite !list_lookup_alter_ne by lia. done.
Qed.

Lemma stock_event_separates_arrays_witness :
  let st1 := run (handle (StockEmission (Some (Stock.mkUpdate 7 5)))) Sample.screen in
  let st2 := run (handle (Resolved (CartService_addToCart 3%nat) (Rx.Next Null))) st1 in
  arr_elems (records st1) = [2%nat; 1%nat] ∧
  arr_elems (filteredRecords st1) = [3%nat; 1%nat] ∧
  arr_elems (filteredRecords st2) = [2%nat; 1%nat] ∧
  map inCart (view st2 (filteredRecords st2)) = [None; Some true] ∧
  (inCart <$> heap st2 !! 3%nat) = Some (Some true).
Proof.
  cbv zeta.
  destruct (stock_event_separates_arrays Sample.screen (Stock.mkUpdate 7 5)
              0%nat 0%nat 0%nat Null screen_wf eq_refl eq_refl eq_refl)
    as (l1 & l2 & copy & Hl1 & Hl2 & Hne & _).
  repeat split; reflexivity.
Defined.

(* ===================================================================== *)
(** ** Further properties: the search filter *)
(* ===================================================================== *)

Section Blank.








Lemma string_app_assoc (a b c : string) : (a +:+ b) +:+ c = a +:+ (b +:+ c).
Proof.
  induction a as [|x a IH]; [done|].
  change (String x ((a +:+ b) +:+ c) = String x (a +:+ (b +:+ c))).
  by rewrite IH.
Qed.





End Blank.


(** X15.  The cart drops the active search filter: after a cart emission,
    and after every continuation of a cart call, [filteredRecords] lists
    all of [records] although [searchText] is unchanged; in a well-formed
    state, running the filter again lists the records it listed before the
    cart emission. *)
Theorem cart_drops_search_filter
  (st : State) (t : string) (cartItems : list Cart.Item) :
  wf st →
  let st1 := run (handle (SearchInput (Some t))) st in
  (∀ ev, (ev = CartEmission cartItems ∨
          ∃ l http, ev = Resolved (CartService_addToCart l) http ∨
                    ev = Resolved (CartService_removeFromCart l) http) →
     searchText (run (handle ev) st1) = Some t ∧
     arr_elems (filteredRecords (run (handle ev) st1)) = arr_elems (records st)) ∧
  arr_elems (filteredRecords
               (run_all [CartEmission cartItems; SearchInput (Some t)] st1)) =
    arr_elems (filteredRecords st1).
Proof.
  intros Hwf. cbv zeta.
  assert (run (handle (SearchInput (Some t))) st =
          after (filterRecords (set_searchText (Some t) st))) as Hst1 by done.
  rewrite Hst1, filterRecords_effect. cbn [after]. split.
  - intros ev [-> | (l & http & [-> | ->])]; unfold run; cbn [handle resolve].
    + by rewrite cart_next_effect.
    + destruct http; cbn [Rx.subscribe].
      * by rewrite addToCart_next_effect.
      * by rewrite addToCart_error_effect.
    + destruct http; cbn [Rx.subscribe].
      * by rewrite removeFromCart_next_effect.
      * by rewrite removeFromCart_error_effect.
  - unfold run_all, run. cbn [fold_left handle onSearchChange].
    rewrite cart_next_effect. cbn [after].
    rewrite (bind_normal (modify _) _ _ _ _ _ eq_refl).
    rewrite filterRecords_effect. cbn.
    destruct (negb (truthy (trim t))); [done|].
    destruct Hwf as (Hvr & _).
    apply filter_ext_in. intros l Hin. apply list_elem_of_In in Hin.
    assert (l < length (heap st))%nat as Hl
      by (by apply (proj1 (Forall_forall _ _) Hvr)).
    destruct (lookup_lt_is_Some_2 _ _ Hl) as [r Hr].
    rewrite (list_lookup_total_correct _ _ _ Hr).
    erewrite list_lookup_total_correct.
    2: { rewrite fold_alter_lookup by apply reconcile_idem.
         rewrite bool_decide_eq_true_2 by done. by rewrite Hr. }
    by destruct r.
Qed.

Lemma cart_drops_search_filter_witness :
  let st1 := run (handle (SearchInput (Some "97"))) Sample.screen in
  let st2 := run (handle (CartEmission [])) st1 in
  arr_elems (filteredRecords st1) = [1%nat] ∧
  searchText st2 = Some "97" ∧
  arr_elems (filteredRecords st2) = [0%nat; 1%nat].
Proof.
  cbv zeta.
  destruct (cart_drops_search_filter Sample.screen "97" [] screen_wf) as [Hdrop _].
  destruct (Hdrop (CartEmission []) (or_introl eq_refl)) as [Ht Hall].
  split; [reflexivity|]. split; [exact Ht|exact Hall].
Defined.

(* ===================================================================== *)
(** ** Further properties: GroupsService.getGroupName *)
(* ===================================================================== *)

Section GroupName.

Import GroupsHttp.

Lemma getGroupName_direct (props : list (string * Value)) (v : Value) :
  own "nameGroup" props = Some v →
  getGroupName_project (Object props) = Normal v.
Proof. intros Hv. unfold getGroupName_project. cbn. by rewrite Hv. Qed.

Lemma getGroupName_first (props : list (string * Value)) (x : Value)
    (rest : list Value) :
  own "nameGroup" props = None →
  own "$values" props = Some (Array (x :: rest)) →
  getGroupName_project (Object props) =
    (let! n := member x "nameGroup" in Normal (JS.or n (Str ""))).
Proof.
  intros Hn Hv. unfold getGroupName_project. cbn. rewrite Hn, Hv. by cbn.
Qed.

Lemma getGroupName_nested (props inner : list (string * Value)) :
  own "nameGroup" props = None →
  own "$values" props = Some (Object inner) →
  getGroupName_project (Object props) =
    Normal (default (Str "") (own "nameGroup" inner)).
Proof.
  intros Hn Hv. unfold getGroupName_project. cbn. rewrite Hn, Hv. cbn.
  by destruct (own "nameGroup" inner).
Qed.

Lemma getGroupName_other (response : Value) :
  (∀ props, response = Object props →
     own "nameGroup" props = None ∧
     ∀ v, own "$values" props = Some v →
          (∀ x rest, v ≠ Array (x :: rest)) ∧ (∀ inner, v ≠ Object inner)) →
  getGroupName_project response = Normal (Str "").
Proof.
  intros Hshape. unfold getGroupName_project.
  destruct response as [| |b|n|s|elems|props]; cbn; try done.
  - by destruct b.
  - by destruct (truthy n).
  - by destruct (truthy s).
  - destruct (Hshape props eq_refl) as [Hn Hv]. rewrite Hn. cbn.
    destruct (own "$values" props) as [v|]; [|done]. cbn.
    destruct (Hv v eq_refl) as [Harr Hobj].
    destruct v as [| |b|n|s|[|x rest]|inner]; cbn; try done.
    + by destruct b.
    + by destruct (truthy n).
    + by destruct (truthy s).
    + by destruct (Harr x rest).
    + by destruct (Hobj inner).
Qed.

End GroupName.

(** X16.  [getGroupName] has no [catchError]: a transport error reaches the
    subscriber unchanged, and the [map] callback adds one failure of its
    own.  An error is delivered exactly when the transport failed or the
    response is an object without an own [nameGroup] whose [$values] is a
    non-empty array beginning with null or undefined. *)
Theorem getGroupName_errors (http : Rx.Notification Value) :
  (∀ e, GroupsHttp.getGroupName (Rx.Error e) = Rx.Error e) ∧
  ((∃ e, GroupsHttp.getGroupName http = Rx.Error e) ↔
   (∃ e, http = Rx.Error e) ∨
   (∃ props x rest,
      http = Rx.Next (Object props) ∧
      own "nameGroup" props = None ∧
      own "$values" props = Some (Array (x :: rest)) ∧
      (x = Null ∨ x = Undefined))).
Proof.
  split; [done|]. unfold GroupsHttp.getGroupName.
  destruct http as [response|e]; cbn; [|split; eauto].
  split.
  - intros [e He]. right.
    destruct (GroupsHttp.getGroupName_project response) as [v|e'] eqn:Hp; [done|].
    destruct response as [| |b|n|s|elems|props];
      try (by rewrite getGroupName_other in Hp).
    destruct (own "nameGroup" props) as [v|] eqn:Hn;
      [by rewrite (getGroupName_direct props v Hn) in Hp|].
    destruct (own "$values" props) as [v|] eqn:Hv.
    + destruct v as [| |b|n|s|[|x rest]|inner].
      1-6: rewrite getGroupName_other in Hp; [done|];
           intros ? [= <-]; split; [done|]; intros ? Hv';
           rewrite Hv in Hv'; injection Hv' as <-; by split.
      * rewrite (getGroupName_first props x rest Hn Hv) in Hp.
        exists props, x, rest. repeat split; try done.
        destruct x; cbn in Hp; try done; eauto.
      * by rewrite (getGroupName_nested props inner Hn Hv) in Hp.
    + rewrite getGroupName_other in Hp; [done|].
      intros ? [= <-]. split; [done|]. intros v Hv'. by rewrite Hv in Hv'.
  - intros [[e [=]]|(props & x & rest & [= ->] & Hn & Hv & Hx)].
    rewrite (getGroupName_first props x rest Hn Hv).
    destruct Hx as [-> | ->]; cbn; eauto.
Qed.

(** X17.  What [getGroupName] delivers for a response: the own [nameGroup]
    of the response object when there is one, whatever else the object
    holds; otherwise, for a [$values] array, the [nameGroup] of its first
    element, or the empty string when that name is missing or falsy, the
    other elements being ignored; otherwise, for a [$values] object, its
    [nameGroup] (the empty string when it has none); and the empty string
    for every other response. *)
Theorem getGroupName_values (props : list (string * Value)) :
  (∀ v, own "nameGroup" props = Some v →
     GroupsHttp.getGroupName (Rx.Next (Object props)) = Rx.Next v) ∧
  (∀ first rest,
     own "nameGroup" props = None →
     own "$values" props = Some (Array (Object first :: rest)) →
     GroupsHttp.getGroupName (Rx.Next (Object props)) =
       Rx.Next (JS.or (default Undefined (own "nameGroup" first)) (Str ""))) ∧
  (∀ inner,
     own "nameGroup" props = None →
     own "$values" props = Some (Object inner) →
     GroupsHttp.getGroupName (Rx.Next (Object props)) =
       Rx.Next (default (Str "") (own "nameGroup" inner))) ∧
  (own "nameGroup" props = None →
     own "$values" props = None ∨ own "$values" props = Some (Array []) →
     GroupsHttp.getGroupName (Rx.Next (Object props)) = Rx.Next (Str "")) ∧
  (∀ response, (∀ props', response ≠ Object props') →
     GroupsHttp.getGroupName (Rx.Next response) = Rx.Next (Str "")).
Proof.
  unfold GroupsHttp.getGroupName. cbn [Rx.map].
  split; [|split; [|split; [|split]]].
  - intros v Hv. by rewrite (getGroupName_direct props v Hv).
  - intros first rest Hn Hv.
    by rewrite (getGroupName_first props _ rest Hn Hv).
  - intros inner Hn Hv.
    by rewrite (getGroupName_nested props inner Hn Hv).
  - intros Hn Hv. rewrite getGroupName_other; [done|].
    intros ? [= <-]. split; [done|]. intros v Hv'.
    destruct Hv as [Hv|Hv]; rewrite Hv in Hv'; [done|]. injection Hv' as <-.
    by split.
  - intros response Hno. rewrite getGroupName_other; [done|].
    intros props' ->. by destruct (Hno props').
Qed.

Lemma getGroupName_values_witness :
  GroupsHttp.getGroupName (Rx.Next Sample.rock) = Rx.Next (Str "Rock") ∧
  GroupsHttp.getGroupName
    (Rx.Next (Object [("$values", Array [Sample.rock; Null])])) = Rx.Next (Str "Rock") ∧
  GroupsHttp.getGroupName
    (Rx.Next (Object [("$values", Array [Object [("idGroup", Number 9)]])])) =
    Rx.Next (Str "") ∧
  GroupsHttp.getGroupName (Rx.Next (Object [("$values", Sample.rock)])) =
    Rx.Next (Str "Rock") ∧
  GroupsHttp.getGroupName (Rx.Next (Object [("$values", Array [])])) = Rx.Next (Str "") ∧
  GroupsHttp.getGroupName (Rx.Next (Array [Sample.rock])) = Rx.Next (Str "").
Proof.
  split; [|split; [|split; [|split; [|split]]]].
  - by apply (getGroupName_values [("idGroup", Number 9); ("nameGroup", Str "Rock")]).
  - destruct (getGroupName_values [("$values", Array [Sample.rock; Null])])
      as (_ & H & _).
    by apply (H [("idGroup", Number 9); ("nameGroup", Str "Rock")] [Null]).
  - destruct (getGroupName_values [("$values", Array [Object [("idGroup", Number 9)]])])
      as (_ & H & _).
    by apply (H [("idGroup", Number 9)] []).
  - destruct (getGroupName_values [("$values", Sample.rock)]) as (_ & _ & H & _).
    by apply (H [("idGroup", Number 9); ("nameGroup", Str "Rock")]).
  - destruct (getGroupName_values [("$values", Array [])]) as (_ & _ & _ & H & _).
    apply H; [done|by right].
  - destruct (getGroupName_values []) as (_ & _ & _ & _ & H).
    by apply H.
Defined.

(* ===================================================================== *)
(** ** Further properties: failures of addGroup and updateGroup *)
(* ===================================================================== *)

Section ErrorMessages.

Import GroupsHttp.

Lemma join_strs (sep : string) (ms : list string) :
  join sep (map Str ms) = Normal (join_strings sep ms).
Proof.
  unfold join. induction ms as [|m ms IH]; [done|].
  destruct ms as [|m' ms]; [done|].
  change (join_by ?f sep (map Str (m :: m' :: ms)))
    with (let! a := Normal m in
          let! b := join_by f sep (map Str (m' :: ms)) in
          Normal (a +:+ sep +:+ b)).
  by rewrite IH.
Qed.

Lemma enumerate_plain (props : list (string * Value)) :
  Forall (fun e => index_of (fst e) = None) props → enumerate props = props.
Proof.
  intros Hplain. unfold enumerate.
  replace (foldr _ [] props) with (@nil (Z * (string * Value))).
  - cbn. induction Hplain as [|e props He _ IH]; [done|].
    rewrite filter_cons_True by done. by rewrite IH.
  - induction Hplain as [|e props He _ IH]; [done|]. cbn. by rewrite He.
Qed.

Lemma describe_fields (fields : list (string * list string)) :
  map_completion describe (map (fun f => (fst f, Array (map Str (snd f)))) fields) =
  Normal (map (fun f => fst f +:+ ": " +:+ join_strings ", " (snd f)) fields).
Proof.
  induction fields as [|[f ms] fields IH]; [done|].
  cbn [map map_completion fst snd]. rewrite IH.
  unfold describe. cbn [fst snd isArray elements]. by rewrite join_strs.
Qed.

Lemma Value_nested_ind (P : Value → Prop) :
  P Undefined → P Null → (∀ b, P (Bool b)) → (∀ n, P (Number n)) →
  (∀ s, P (Str s)) → (∀ elems, Forall P elems → P (Array elems)) →
  (∀ props, P (Object props)) → ∀ v, P v.
Proof.
  intros Hu Hn Hb Hz Hs Ha Ho. fix IH 1.
  intros [| |b|n|s|elems|props];
    [exact Hu|exact Hn|apply Hb|apply Hz|apply Hs| |apply Ho].
  apply Ha. induction elems as [|x rest IHrest]; constructor;
    [apply IH | exact IHrest].
Qed.

Lemma ToString_throws (v e : Value) : ToString v = Throw e → e = TypeError.
Proof.
  revert e. induction v as [| |b|n|s|elems IH|props] using Value_nested_ind;
    intros e; cbn; try done.
  - induction IH as [|x rest Hx _ IHrest]; [done|].
    destruct rest as [|y rest].
    + destruct x; try done; apply Hx.
    + change (join_by ?f "," (x :: y :: rest))
        with (let! a := f x in
              let! b := join_by f "," (y :: rest) in
              Normal (a +:+ "," +:+ b)).
      set (f := fun x : Value => match x with
                                 | Undefined | Null => Normal ""
                                 | _ => ToString x
                                 end) in *.
      assert (∀ e', f x = Throw e' → e' = TypeError) as Hfx
        by (intros e'; subst f; destruct x; try done; apply Hx).
      destruct (f x) as [a|e'] eqn:Hf; cbn [JS.bind].
      * destruct (join_by f "," (y :: rest)) eqn:Hrest; [done|].
        intros [= <-]. by apply IHrest.
      * intros [= <-]. by apply Hfx.
  - destruct (own "toString" props); [|done]. by intros [= <-].
Qed.

Lemma join_throws (sep : string) (xs : list Value) (e : Value) :
  join sep xs = Throw e → e = TypeError.
Proof.
  unfold join. set (f := fun x : Value => _).
  assert (∀ x e', f x = Throw e' → e' = TypeError) as Hf
    by (intros x e'; subst f; destruct x; try done; apply ToString_throws).
  induction xs as [|x rest IH]; [done|].
  destruct rest as [|y rest]; [apply Hf|].
  change (join_by f sep (x :: y :: rest))
    with (let! a := f x in
          let! b := join_by f sep (y :: rest) in
          Normal (a +:+ sep +:+ b)).
  destruct (f x) as [a|e'] eqn:Hx; cbn [JS.bind].
  - destruct (join_by f sep (y :: rest)); [done|]. intros [= <-]. by apply IH.
  - intros [= <-]. by apply (Hf x).
Qed.

Lemma describe_throws (entries : list (string * Value)) (e : Value) :
  map_completion describe entries = Throw e → e = TypeError.
Proof.
  induction entries as [|[k v] entries IH]; [done|]. cbn [map_completion].
  destruct (describe (k, v)) as [line|e'] eqn:Hd; cbn [JS.bind].
  - destruct (map_completion describe entries); [done|].
    intros [= <-]. by apply IH.
  - intros [= <-]. unfold describe in Hd. cbn [fst snd] in Hd.
    destruct (isArray v).
    + destruct (join ", " (elements v)) as [|e0] eqn:Hj; [done|].
      cbn in Hd. injection Hd as ->. by apply (join_throws ", " (elements v)).
    + destruct (ToString v) as [|e0] eqn:Hs; [done|].
      cbn in Hd. injection Hd as ->. by apply (ToString_throws v).
Qed.

Lemma member_throws (v : Value) (k : string) (e : Value) :
  member v k = Throw e → e = TypeError.
Proof. destruct v; cbn; try done; by intros [= <-]. Qed.

Lemma errorMessage_throws (fallback unknown : string) (error e : Value) :
  errorMessage fallback unknown error = Throw e → e = TypeError.
Proof.
  unfold errorMessage.
  destruct (member error "error") as [serverError|e'] eqn:Hm; cbn [JS.bind];
    [|intros [= <-]; by apply (member_throws error "error")].
  destruct (optional_member serverError "errors") as [errors|e'] eqn:Ho;
    cbn [JS.bind].
  2: { intros [= <-]. destruct serverError; try done;
       by apply (member_throws _ "errors" _ Ho). }
  destruct (truthy errors).
  { destruct (map_completion describe (Object_entries errors)) eqn:Hd; [done|].
    cbn [JS.bind]. intros [= <-]. by apply (describe_throws _ _ Hd). }
  destruct (truthy serverError); [|done].
  destruct (String.eqb (typeof serverError) "object").
  - destruct (member serverError "title") as [title|] eqn:Ht; cbn [JS.bind];
      [|intros [= <-]; by apply (member_throws _ _ _ Ht)].
    destruct (truthy title); [apply ToString_throws|].
    destruct (member serverError "message") as [message|] eqn:Hmsg; cbn [JS.bind];
      [|intros [= <-]; by apply (member_throws _ _ _ Hmsg)].
    destruct (truthy message); [apply ToString_throws|].
    destruct (member serverError "error") as [inner|] eqn:Hi; cbn [JS.bind];
      [|intros [= <-]; by apply (member_throws _ _ _ Hi)].
    destruct (truthy inner); [apply ToString_throws|done].
  - destruct (String.eqb (typeof serverError) "string");
      [apply ToString_throws|done].
Qed.

Lemma errorMessage_agree (f1 u1 f2 u2 : string) (error : Value) :
  errorMessage f1 u1 error = errorMessage f2 u2 error ∨
  (errorMessage f1 u1 error = Normal f1 ∧ errorMessage f2 u2 error = Normal f2) ∨
  (errorMessage f1 u1 error = Normal u1 ∧ errorMessage f2 u2 error = Normal u2).
Proof.
  unfold errorMessage.
  destruct (member error "error") as [serverError|]; cbn [JS.bind]; [|by left].
  destruct (optional_member serverError "errors") as [errors|]; cbn [JS.bind];
    [|by left].
  destruct (truthy errors); [by left|].
  destruct (truthy serverError); [|by right; left].
  destruct (String.eqb (typeof serverError) "object").
  - destruct (member serverError "title") as [title|]; cbn [JS.bind]; [|by left].
    destruct (truthy title); [by left|].
    destruct (member serverError "message") as [message|]; cbn [JS.bind]; [|by left].
    destruct (truthy message); [by left|].
    destruct (member serverError "error") as [inner|]; cbn [JS.bind]; [|by left].
    destruct (truthy inner); [by left|by right; right].
  - destruct (String.eqb (typeof serverError) "string"); [by left|by right; left].
Qed.

End ErrorMessages.

(** X18.  A failed [addGroup] or [updateGroup] whose error body carries an
    [errors] object of message lists (field names that are not array
    indices) is delivered as an [Error] whose message is
    [Validation error: ] followed by one [field: m1, m2] item per field, in
    the order of the fields, separated by [; ].  Both methods build the same
    message, and a [title] or [message] of the body is not looked at. *)
Theorem validation_error_message (eprops bprops : list (string * Value))
    (fields : list (string * list string)) :
  own "error" eprops = Some (Object bprops) →
  own "errors" bprops =
    Some (Object (map (fun f => (fst f, Array (map Str (snd f)))) fields)) →
  Forall (fun f => index_of (fst f) = None) fields →
  let message :=
    "Validation error: " +:+
    join_strings "; "
      (map (fun f => fst f +:+ ": " +:+ join_strings ", " (snd f)) fields) in
  GroupsHttp.addGroup_result (Rx.Error (Object eprops)) =
    Rx.Error (GroupsHttp.Error_ message) ∧
  GroupsHttp.updateGroup_result (Rx.Error (Object eprops)) =
    Rx.Error (GroupsHttp.Error_ message).
Proof.
  intros He Hb Hplain message.
  assert (∀ fallback unknown,
            GroupsHttp.errorMessage fallback unknown (Object eprops) = Normal message)
    as Hmsg.
  { intros fallback unknown. unfold GroupsHttp.errorMessage. cbn. rewrite He. cbn.
    rewrite Hb. cbn. rewrite enumerate_plain.
    - by rewrite describe_fields.
    - clear -Hplain. induction Hplain; constructor; done. }
  unfold GroupsHttp.addGroup_result, GroupsHttp.updateGroup_result,
    GroupsHttp.rethrow. cbn [Rx.catchError]. by rewrite !Hmsg.
Qed.

Lemma validation_error_message_witness :
  let error :=
    [("status", Number 400);
     ("error",
      Object [("title", Str "One or more validation errors occurred.");
              ("errors",
               Object [("NameGroup", Array [Str "required"; Str "too long"]);
                       ("Photo", Array [Str "not an image"])])])] in
  GroupsHttp.addGroup_result (Rx.Error (Object error)) =
    Rx.Error (GroupsHttp.Error_
      "Validation error: NameGroup: required, too long; Photo: not an image") ∧
  GroupsHttp.updateGroup_result (Rx.Error (Object error)) =
    Rx.Error (GroupsHttp.Error_
      "Validation error: NameGroup: required, too long; Photo: not an image").
Proof.
  cbv zeta.
  apply (validation_error_message _
           [("title", Str "One or more validation errors occurred.");
            ("errors",
             Object [("NameGroup", Array [Str "required"; Str "too long"]);
                     ("Photo", Array [Str "not an image"])])]
           [("NameGroup", ["required"; "too long"]); ("Photo", ["not an image"])]).
  - reflexivity.
  - reflexivity.
  - repeat constructor.
Defined.

(** X19.  The message of a failed [addGroup] or [updateGroup] when the error
    body has no truthy [errors] (the two fixed texts of the method are
    [fallback] and [unknown]).  A non-empty string body is the message
    itself.  For an object body the first truthy one of [title], [message]
    and [error] is the message, in this order, and a body with none of them
    (an array body too) gives the [unknown] text, not the [fallback] text.
    A missing, null, empty, numeric or boolean body gives the [fallback]
    text. *)
Theorem server_error_message (fallback unknown : string)
    (eprops : list (string * Value)) :
  let message := GroupsHttp.errorMessage fallback unknown (Object eprops) in
  let body := default Undefined (own "error" eprops) in
  (truthy body = false → message = Normal fallback) ∧
  (∀ n, body = Number n → message = Normal fallback) ∧
  (∀ b, body = Bool b → message = Normal fallback) ∧
  (∀ s, body = Str s → s ≠ "" → message = Normal s) ∧
  (∀ elems, body = Array elems → message = Normal unknown) ∧
  (∀ bprops, body = Object bprops →
     truthy (default Undefined (own "errors" bprops)) = false →
     let title := default Undefined (own "title" bprops) in
     let msg := default Undefined (own "message" bprops) in
     let inner := default Undefined (own "error" bprops) in
     (truthy title = true → message = ToString title) ∧
     (truthy title = false → truthy msg = true → message = ToString msg) ∧
     (truthy title = false → truthy msg = false → truthy inner = true →
        message = ToString inner) ∧
     (truthy title = false → truthy msg = false → truthy inner = false →
        message = Normal unknown)).
Proof.
  cbv zeta. unfold GroupsHttp.errorMessage. cbn [member JS.bind].
  destruct (default Undefined (own "error" eprops)) as [| |b|n|s|elems|bprops];
    (split; [|split; [|split; [|split; [|split]]]]); try done.
  - by destruct b.
  - intros _ _. by destruct b.
  - cbn. by destruct (truthy n).
  - intros _ _. cbn. by destruct (truthy n).
  - cbn. by destruct s.
  - intros s' [= <-] Hs. by destruct s.
  - intros bprops' [= <-] Herrors. cbn [optional_member member JS.bind].
    rewrite Herrors. cbn.
    destruct (truthy (default Undefined (own "title" bprops)));
      [by repeat split|].
    destruct (truthy (default Undefined (own "message" bprops)));
      [by repeat split|].
    destruct (truthy (default Undefined (own "error" bprops))); by repeat split.
Qed.

Lemma server_error_message_witness :
  GroupsHttp.errorMessage "Error creating group" "Unknown server error"
    (Object [("status", Number 0)]) = Normal "Error creating group" ∧
  GroupsHttp.errorMessage "Error creating group" "Unknown server error"
    (Object [("error", Str "Bad gateway")]) = Normal "Bad gateway" ∧
  GroupsHttp.errorMessage "Error creating group" "Unknown server error"
    (Object [("error", Object [("message", Str "Duplicate name");
                               ("title", Str "Conflict")])]) = Normal "Conflict" ∧
  GroupsHttp.errorMessage "Error creating group" "Unknown server error"
    (Object [("error", Object [("title", Str "");
                               ("message", Str "Duplicate name")])]) =
    Normal "Duplicate name" ∧
  GroupsHttp.errorMessage "Error creating group" "Unknown server error"
    (Object [("error", Object [("error", Number 409)])]) = Normal "409" ∧
  GroupsHttp.errorMessage "Error updating group" "Error desconocido del servidor"
    (Object [("error", Object [("status", Number 500)])]) =
    Normal "Error desconocido del servidor".
Proof.
  split; [|split; [|split; [|split; [|split]]]].
  - destruct (server_error_message "Error creating group" "Unknown server error"
                [("status", Number 0)]) as (H & _).
    by apply H.
  - destruct (server_error_message "Error creating group" "Unknown server error"
                [("error", Str "Bad gateway")]) as (_ & _ & _ & H & _).
    by apply H.
  - destruct (server_error_message "Error creating group" "Unknown server error"
                [("error", Object [("message", Str "Duplicate name");
                                   ("title", Str "Conflict")])])
      as (_ & _ & _ & _ & _ & H).
    destruct (H _ eq_refl eq_refl) as (Ht & _). by rewrite Ht.
  - destruct (server_error_message "Error creating group" "Unknown server error"
                [("error", Object [("title", Str "");
                                   ("message", Str "Duplicate name")])])
      as (_ & _ & _ & _ & _ & H).
    destruct (H _ eq_refl eq_refl) as (_ & Hm & _). by rewrite Hm.
  - destruct (server_error_message "Error creating group" "Unknown server error"
                [("error", Object [("error", Number 409)])])
      as (_ & _ & _ & _ & _ & H).
    destruct (H _ eq_refl eq_refl) as (_ & _ & Hi & _). by rewrite Hi.
  - destruct (server_error_message "Error updating group"
                "Error desconocido del servidor"
                [("error", Object [("status", Number 500)])])
      as (_ & _ & _ & _ & _ & H).
    destruct (H _ eq_refl eq_refl) as (_ & _ & _ & Hu). by rewrite Hu.
Defined.

(** X20.  [addGroup] and [updateGroup] never turn a failure into a value: a
    response passes through unchanged and every failure is delivered as a
    failure.  What is delivered is a new [Error] that holds a message only
    (the status and the body of the HTTP failure are not passed on), or a
    [TypeError] when building the message threw.  The two methods deliver
    the same failure, except where one of their two fixed texts is the
    message: then each delivers its own. *)
Theorem group_write_failures (error : Value) :
  (∀ v, GroupsHttp.addGroup_result (Rx.Next v) = Rx.Next v ∧
        GroupsHttp.updateGroup_result (Rx.Next v) = Rx.Next v) ∧
  ((∃ message,
      GroupsHttp.addGroup_result (Rx.Error error) =
        Rx.Error (GroupsHttp.Error_ message)) ∨
   GroupsHttp.addGroup_result (Rx.Error error) = Rx.Error TypeError) ∧
  ((∃ message,
      GroupsHttp.updateGroup_result (Rx.Error error) =
        Rx.Error (GroupsHttp.Error_ message)) ∨
   GroupsHttp.updateGroup_result (Rx.Error error) = Rx.Error TypeError) ∧
  (GroupsHttp.addGroup_result (Rx.Error error) =
     GroupsHttp.updateGroup_result (Rx.Error error) ∨
   (GroupsHttp.addGroup_result (Rx.Error error) =
      Rx.Error (GroupsHttp.Error_ "Error creating group") ∧
    GroupsHttp.updateGroup_result (Rx.Error error) =
      Rx.Error (GroupsHttp.Error_ "Error updating group")) ∨
   (GroupsHttp.addGroup_result (Rx.Error error) =
      Rx.Error (GroupsHttp.Error_ "Unknown server error") ∧
    GroupsHttp.updateGroup_result (Rx.Error error) =
      Rx.Error (GroupsHttp.Error_ "Error desconocido del servidor"))).
Proof.
  unfold GroupsHttp.addGroup_result, GroupsHttp.updateGroup_result,
    GroupsHttp.rethrow. cbn [Rx.catchError].
  split; [done|].
  pose proof (errorMessage_throws "Error creating group" "Unknown server error"
                error) as Ha.
  pose proof (errorMessage_throws "Error updating group"
                "Error desconocido del servidor" error) as Hu.
  pose proof (errorMessage_agree "Error creating group" "Unknown server error"
                "Error updating group" "Error desconocido del servidor" error)
    as Hagree.
  destruct (GroupsHttp.errorMessage "Error creating group" _ error) as [ma|ea];
    destruct (GroupsHttp.errorMessage "Error updating group" _ error) as [mu|eu].
  - split; [eauto|]. split; [eauto|].
    destruct Hagree as [[= ->]|[[[= ->] [= ->]]|[[= ->] [= ->]]]]; eauto.
  - destruct Hagree as [?|[[? ?]|[? ?]]]; done.
  - destruct Hagree as [?|[[? ?]|[? ?]]]; done.
  - rewrite (Ha ea eq_refl), (Hu eu eq_refl).
    split; [by right|]. split; [by right|by left].
Qed.

(* ===================================================================== *)
(** ** Further properties: the requests of GroupsService *)
(* ===================================================================== *)

(** X21.  What [addGroup] and [updateGroup] send for a group.  Both send
    [NameGroup], and [MusicGenreId] exactly when the genre is a number other
    than 0.  [updateGroup] sends [ImageGroup] exactly when the group has a
    non-empty image and no photo, and a body exactly when it has a photo, so
    never both; [addGroup] never sends [ImageGroup] and always sends a form,
    which is empty without a photo.  The photo part of [addGroup] never has
    an empty media type; that of [updateGroup] has the type of the file as it
    is. *)
Theorem group_write_requests (baseUrl token : string) (group : GroupsHttp.IGroup) :
  let a := GroupsHttp.addGroup baseUrl token group in
  let u := GroupsHttp.updateGroup baseUrl token group in
  GroupsHttp.get "NameGroup" (GroupsHttp.params a) = Some (GroupsHttp.nameGroup group) ∧
  GroupsHttp.get "NameGroup" (GroupsHttp.params u) = Some (GroupsHttp.nameGroup group) ∧
  GroupsHttp.get "MusicGenreId" (GroupsHttp.params a) =
    GroupsHttp.get "MusicGenreId" (GroupsHttp.params u) ∧
  (GroupsHttp.get "MusicGenreId" (GroupsHttp.params u) = None ↔
     GroupsHttp.musicGenreId group = None ∨ GroupsHttp.musicGenreId group = Some 0) ∧
  (∀ g, GroupsHttp.musicGenreId group = Some g → g ≠ 0 →
     GroupsHttp.get "MusicGenreId" (GroupsHttp.params u) = Some (toString g)) ∧
  GroupsHttp.get "ImageGroup" (GroupsHttp.params a) = None ∧
  (∀ image, GroupsHttp.get "ImageGroup" (GroupsHttp.params u) = Some image ↔
     GroupsHttp.imageGroup group = Some image ∧ image ≠ "" ∧
     GroupsHttp.photo group = None) ∧
  (GroupsHttp.body u = None ↔ GroupsHttp.photo group = None) ∧
  ¬ (is_Some (GroupsHttp.body u) ∧
     is_Some (GroupsHttp.get "ImageGroup" (GroupsHttp.params u))) ∧
  (GroupsHttp.photo group = None → GroupsHttp.body a = Some []) ∧
  (∀ f, GroupsHttp.photo group = Some f →
     GroupsHttp.body u =
       Some [GroupsHttp.mkPart "Photo" (GroupsHttp.file_name f) (GroupsHttp.file_type f)] ∧
     ∃ type,
       GroupsHttp.body a =
         Some [GroupsHttp.mkPart "Photo" (GroupsHttp.file_name f) type] ∧
       type ≠ "" ∧
       (GroupsHttp.file_type f ≠ "" → type = GroupsHttp.file_type f) ∧
       (GroupsHttp.file_type f = "" → type = "application/octet-stream")).
Proof.
  destruct group as [id name genre image photo]. cbv zeta.
  unfold GroupsHttp.addGroup, GroupsHttp.updateGroup.
  cbn [GroupsHttp.nameGroup GroupsHttp.musicGenreId GroupsHttp.imageGroup
       GroupsHttp.photo GroupsHttp.params GroupsHttp.body].
  assert ((opt_test genre truthy = true ∧ ∃ g, genre = Some g ∧ g ≠ 0) ∨
          (opt_test genre truthy = false ∧ (genre = None ∨ genre = Some 0)))
    as [[-> (g & -> & Hg)] | [-> Hgenre]].
  { destruct genre as [g|]; cbn; [|right; split; [done|by left]].
    unfold truthy, truthy_Z. destruct (Z.eqb_spec g 0) as [->|Hg]; cbn.
    - right. split; [done|by right].
    - left. split; [done|]. by exists g. }
  - destruct image as [[|c i]|], photo as [f|]; cbn; split_and!;
      try done; try (by intuition congruence);
      try (by intros [[? ?] [? ?]]);
      try (intros f0 [= <-]; split; [done|];
           destruct (GroupsHttp.file_type f) as [|c' t]; cbn; eexists;
           split_and!; done).
  - destruct image as [[|c i]|], photo as [f|]; cbn; split_and!;
      try done; try (by intuition congruence);
      try (by intros [[? ?] [? ?]]);
      try (intros f0 [= <-]; split; [done|];
           destruct (GroupsHttp.file_type f) as [|c' t]; cbn; eexists;
           split_and!; done).
Qed.

Lemma group_write_requests_witness :
  let group :=
    GroupsHttp.mkGroup 9 "Rock" (Some 0) (Some "img/rock.png")
      (Some (GroupsHttp.mkFile "new.png" "")) in
  GroupsHttp.get "ImageGroup"
    (GroupsHttp.params (GroupsHttp.updateGroup "api/" "t" group)) = None ∧
  GroupsHttp.get "MusicGenreId"
    (GroupsHttp.params (GroupsHttp.updateGroup "api/" "t" group)) = None ∧
  GroupsHttp.body (GroupsHttp.updateGroup "api/" "t" group) =
    Some [GroupsHttp.mkPart "Photo" "new.png" ""] ∧
  GroupsHttp.body (GroupsHttp.addGroup "api/" "t" group) =
    Some [GroupsHttp.mkPart "Photo" "new.png" "application/octet-stream"].
Proof.
  cbv zeta.
  destruct (group_write_requests "api/" "t"
              (GroupsHttp.mkGroup 9 "Rock" (Some 0) (Some "img/rock.png")
                 (Some (GroupsHttp.mkFile "new.png" ""))))
    as (_ & _ & _ & Hgenre & _ & _ & _ & _ & _ & _ & Hphoto).
  destruct (Hphoto _ eq_refl) as (Hu & type & Ha & _ & _ & Hempty).
  rewrite (Hempty eq_refl) in Ha.
  split; [reflexivity|]. split; [apply Hgenre; by right|]. by split.
Defined.

(** X22.  The headers of the calls of [GroupsService].  Every call carries
    [Authorization: Bearer] with the token.  [getHeaders] sets
    [Content-Type] to its argument unless the argument is empty or
    [multipart/form-data], so no call ever names the multipart type itself:
    [updateGroup] sends [Content-Type: application/json] exactly when it has
    no photo and no [Content-Type] with a photo, [addGroup] never sends one.
    [addGroup] accepts [text/plain], the other calls [application/json]. *)
Theorem group_call_headers (baseUrl token : string) (group : GroupsHttp.IGroup)
    (id : Z) (contentType : string) :
  let calls := [GroupsHttp.getGroups_call baseUrl token;
                GroupsHttp.addGroup baseUrl token group;
                GroupsHttp.updateGroup baseUrl token group;
                GroupsHttp.deleteGroup baseUrl token id] in
  Forall (fun c =>
            GroupsHttp.get "Authorization" (GroupsHttp.headers c) =
              Some ("Bearer " +:+ token) ∧
            GroupsHttp.get "Content-Type" (GroupsHttp.headers c) ≠
              Some "multipart/form-data") calls ∧
  GroupsHttp.get "Content-Type" (GroupsHttp.getHeaders token contentType) =
    (if bool_decide (contentType = "" ∨ contentType = "multipart/form-data")
     then None else Some contentType) ∧
  GroupsHttp.get "Content-Type"
    (GroupsHttp.headers (GroupsHttp.addGroup baseUrl token group)) = None ∧
  GroupsHttp.get "Content-Type"
    (GroupsHttp.headers (GroupsHttp.updateGroup baseUrl token group)) =
    (if bool_decide (GroupsHttp.photo group = None)
     then Some "application/json" else None) ∧
  GroupsHttp.get "Accept"
    (GroupsHttp.headers (GroupsHttp.addGroup baseUrl token group)) =
    Some "text/plain" ∧
  Forall (fun c => GroupsHttp.get "Accept" (GroupsHttp.headers c) =
                   Some "application/json")
    [GroupsHttp.getGroups_call baseUrl token;
     GroupsHttp.updateGroup baseUrl token group;
     GroupsHttp.deleteGroup baseUrl token id].
Proof.
  cbv zeta.
  assert (GroupsHttp.headers (GroupsHttp.updateGroup baseUrl token group) =
          if bool_decide (GroupsHttp.photo group = None)
          then [("Authorization", "Bearer " +:+ token);
                ("Accept", "application/json");
                ("Content-Type", "application/json")]
          else [("Authorization", "Bearer " +:+ token);
                ("Accept", "application/json")]) as Hu.
  { unfold GroupsHttp.updateGroup. cbn [GroupsHttp.headers].
    by destruct (GroupsHttp.photo group). }
  split_and!.
  - repeat constructor; try done; rewrite Hu;
      by destruct (bool_decide (GroupsHttp.photo group = None)).
  - unfold GroupsHttp.getHeaders.
    destruct contentType as [|c s]; [done|].
    cbn [truthy truthy_string andb].
    destruct (String.eqb_spec (String c s) "multipart/form-data") as [->|Hne].
    + done.
    + cbn. rewrite bool_decide_eq_false_2; [done|]. by intros [?|?].
  - done.
  - rewrite Hu. by destruct (bool_decide (GroupsHttp.photo group = None)).
  - done.
  - repeat constructor; try done. rewrite Hu.
    by destruct (bool_decide (GroupsHttp.photo group = None)).
Qed.

(* ===================================================================== *)
(** ** Further properties: extractImageName and the edit buffer *)
(* ===================================================================== *)

Section Split.

Variable sep : ascii.

Lemma includes_sep_cons (c : ascii) (s : string) :
  includes (String c s) (String sep "") =
  Ascii.eqb c sep || includes s (String sep "").
Proof.
  cbn [includes]. f_equal. unfold String.prefix.
  destruct (ascii_dec sep c) as [<-|Hne].
  - rewrite Ascii.eqb_refl. by destruct s.
  - destruct (Ascii.eqb_spec c sep) as [->|_]; [by destruct Hne|done].
Qed.

Lemma split_nonempty (s : string) : split sep s ≠ [].
Proof.
  destruct s as [|c s]; [done|]. cbn.
  destruct (Ascii.eqb c sep); [done|]. by destruct (split sep s).
Qed.

Lemma split_plain (s : string) :
  includes s (String sep "") = false → split sep s = [s].
Proof.
  induction s as [|c s IH]; [done|]. rewrite includes_sep_cons.
  intros [Hc Hs]%orb_false_elim. cbn. rewrite Hc. by rewrite (IH Hs).
Qed.

Lemma split_pieces (s : string) :
  Forall (fun p => includes p (String sep "") = false) (split sep s).
Proof.
  induction s as [|c s IH]; [by repeat constructor|]. cbn.
  destruct (Ascii.eqb c sep) eqn:Hc; [by constructor|].
  destruct (split sep s) as [|p ps]; [|inversion IH as [|? ? Hp Hps]; subst].
  - constructor; [|done]. rewrite includes_sep_cons, Hc. done.
  - constructor; [|done]. by rewrite includes_sep_cons, Hc.
Qed.

Lemma split_app (a b : string) :
  split sep (a +:+ String sep b) = (split sep a ++ split sep b)%list.
Proof.
  induction a as [|c a IH]; simpl.
  - by rewrite Ascii.eqb_refl.
  - rewrite IH. destruct (Ascii.eqb c sep); [done|].
    pose proof (split_nonempty a). by destruct (split sep a).
Qed.

Lemma join_split (s : string) :
  join_strings (String sep "") (split sep s) = s.
Proof.
  induction s as [|c s IH]; [done|]. cbn [split].
  pose proof (split_nonempty s) as Hne.
  destruct (Ascii.eqb_spec c sep) as [->|_].
  - destruct (split sep s) as [|p ps]; [done|].
    change (join_strings (String sep "") ("" :: p :: ps))
      with (String sep (join_strings (String sep "") (p :: ps))).
    by rewrite IH.
  - destruct (split sep s) as [|p ps]; [done|].
    destruct ps as [|q ps]; cbn in *; by rewrite <- IH.
Qed.

Lemma join_snoc (init : list string) (n : string) :
  join_strings (String sep "") (init ++ [n])%list =
  match init with
  | [] => n
  | _ => join_strings (String sep "") init +:+ String sep n
  end.
Proof.
  induction init as [|p init IH]; [done|].
  destruct init as [|q init]; [done|].
  change (join_strings (String sep "") ((p :: q :: init) ++ [n])%list)
    with (p +:+ String sep (join_strings (String sep "") ((q :: init) ++ [n])%list)).
  rewrite IH.
  change (join_strings (String sep "") (p :: q :: init))
    with (p +:+ String sep (join_strings (String sep "") (q :: init))).
  by rewrite string_app_assoc.
Qed.

End Split.

Lemma extractImageName_last (url : string) :
  extractImageName url = default "" (last (split "/" url)).
Proof. by destruct url. Qed.

(** X23.  [extractImageName] returns the part of the address after its last
    [/]: the result contains no [/], the address is the result alone or a
    directory ending in [/] followed by the result, an address without [/]
    is returned whole, and the name of [dir/file] is [file] (the empty name
    when the address ends in [/]).  Applying it twice changes nothing. *)
Theorem extractImageName_spec (url : string) :
  let name := extractImageName url in
  includes name "/" = false ∧
  (∃ dir, url = dir +:+ name ∧ (dir = "" ∨ ∃ d, dir = d +:+ "/")) ∧
  (includes url "/" = false → name = url) ∧
  extractImageName name = name ∧
  (∀ dir file, includes file "/" = false →
     extractImageName (dir +:+ "/" +:+ file) = file).
Proof.
  cbv zeta.
  assert (∀ s, includes s "/" = false → extractImageName s = s) as Hplain.
  { intros s Hs. rewrite extractImageName_last.
    by rewrite (split_plain "/" s Hs). }
  assert (includes (extractImageName url) "/" = false) as Hname.
  { rewrite extractImageName_last.
    pose proof (split_pieces "/" url) as Hpieces.
    destruct (last (split "/" url)) as [n|] eqn:Hlast; [|done].
    apply last_Some in Hlast as [init Hinit]. rewrite Hinit in Hpieces.
    apply Forall_app in Hpieces as [_ Hn]. by inversion Hn. }
  split_and!.
  - exact Hname.
  - rewrite extractImageName_last.
    pose proof (join_split "/" url) as Hjoin.
    destruct (last (split "/" url)) as [n|] eqn:Hlast.
    + apply last_Some in Hlast as [init Hinit].
      rewrite Hinit, join_snoc in Hjoin. cbn [default].
      destruct init as [|p init].
      * exists "". split; [done|by left].
      * exists (join_strings "/" (p :: init) +:+ "/"). split.
        -- by rewrite string_app_assoc.
        -- right. by eexists.
    + apply last_None in Hlast. by destruct (split_nonempty "/" url).
  - apply Hplain.
  - by apply Hplain.
  - intros dir file Hfile. rewrite extractImageName_last.
    change (dir +:+ "/" +:+ file) with (dir +:+ String "/" file).
    rewrite split_app, (split_plain "/" file Hfile).
    by rewrite last_snoc.
Qed.

Lemma extractImageName_spec_witness :
  extractImageName "https://cdn.example/img/covers/ok-computer.png" =
    "ok-computer.png" ∧
  extractImageName "cover.png" = "cover.png" ∧
  extractImageName "img/covers/" = "".
Proof.
  split; [|split].
  - destruct (extractImageName_spec "") as (_ & _ & _ & _ & H).
    by apply (H "https://cdn.example/img/covers" "ok-computer.png").
  - destruct (extractImageName_spec "cover.png") as (_ & _ & H & _).
    by apply H.
  - destruct (extractImageName_spec "") as (_ & _ & _ & _ & H).
    by apply (H "img/covers" "").
Defined.

Lemma edit_effect (l : loc) (st : State) :
  edit l st =
  mkEffect (Normal tt)
    (set_record
       (with_photoName
          (if opt_test (imageRecord (heap st !!! l)) truthy
           then option_map extractImageName (imageRecord (heap st !!! l))
           else None)
          (with_photo None (heap st !!! l))) st) [].
Proof. reflexivity. Qed.

Lemma failed_save_keeps_buffer (rq : Request) (err : Value) (st : State) :
  record_gateway_call rq →
  record (run (resolve rq (Rx.Error err)) st) = record st.
Proof.
  intros Hrq. unfold run. rewrite (record_gateway_error rq err st Hrq).
  unfold controlError. cbn. by destruct (controlError_message err).
Qed.

(** X24.  [edit] fills the edit buffer with a copy of the chosen record and
    touches nothing else: the copy has the fields of the record except that
    [photo] is null and [photoName] is the file name taken from
    [imageRecord] (null when the record has no image address).  [save] then
    issues exactly one call with that buffer: [updateRecord], or [addRecord]
    when the [idRecord] of the record is 0.  A failure of that call leaves
    the buffer as it was, so saving again issues the same call;
    [cancelEdition] puts the blank record back, which [save] sends to
    [addRecord]. *)
Theorem edit_then_save (st : State) (l : loc) (r : IRecord) :
  heap st !! l = Some r →
  let editing := run (edit l) st in
  let buffer := record editing in
  let call := if bool_decide (idRecord r = Some 0)
              then RecordsService_addRecord buffer
              else RecordsService_updateRecord buffer in
  editing = set_record buffer st ∧
  issued (edit l st) = [] ∧
  with_photoName (photoName r) (with_photo (photo r) buffer) = r ∧
  photo buffer = None ∧
  photoName buffer =
    match imageRecord r with
    | Some url => if truthy url then Some (extractImageName url) else None
    | None => None
    end ∧
  issued (save editing) = [call] ∧
  run save editing = editing ∧
  (∀ err,
     let failed := run (resolve call (Rx.Error err)) editing in
     record failed = buffer ∧ issued (save failed) = [call]) ∧
  issued (save (run cancelEdition editing)) =
    [RecordsService_addRecord empty_record].
Proof.
  intros Hr. cbv zeta. unfold run. rewrite edit_effect.
  rewrite (list_lookup_total_correct _ _ _ Hr). cbn [after].
  set (buffer := with_photoName _ (with_photo None r)).
  assert (idRecord buffer = idRecord r) as Hid by done.
  assert (∀ st', record st' = buffer →
            save st' =
            mkEffect (Normal tt) st'
              [if bool_decide (idRecord r = Some 0)
               then RecordsService_addRecord buffer
               else RecordsService_updateRecord buffer]) as Hsave.
  { intros st' Hst'. unfold save, bind, get. cbn. rewrite Hst', Hid.
    by destruct (bool_decide (idRecord r = Some 0)). }
  split_and!.
  - done.
  - done.
  - by destruct r.
  - done.
  - subst buffer. cbn. destruct (imageRecord r) as [url|]; [|done]. cbn.
    by destruct (truthy url).
  - by rewrite Hsave.
  - by rewrite Hsave.
  - intros err.
    assert (record (after (resolve
                      (if bool_decide (idRecord r = Some 0)
                       then RecordsService_addRecord buffer
                       else RecordsService_updateRecord buffer)
                      (Rx.Error err) (set_record buffer st))) = buffer) as Hkept.
    { apply (failed_save_keeps_buffer _ err (set_record buffer st)).
      by destruct (bool_decide (idRecord r = Some 0)). }
    split; [exact Hkept|]. exact (f_equal issued (Hsave _ Hkept)).
  - done.
Qed.

Lemma edit_then_save_witness :
  let editing := run (edit 0%nat) Sample.screen in
  photoName (record editing) =
    option_map extractImageName (imageRecord (heap Sample.screen !!! 0%nat)) ∧
  issued (save editing) = [RecordsService_updateRecord (record editing)] ∧
  issued (save (run cancelEdition editing)) =
    [RecordsService_addRecord empty_record].
Proof.
  cbv zeta.
  destruct (edit_then_save Sample.screen 0%nat (heap Sample.screen !!! 0%nat) eq_refl)
    as (_ & _ & _ & _ & Hname & Hsave & _ & _ & Hcancel).
  split; [|split].
  - rewrite Hname. reflexivity.
  - rewrite Hsave. reflexivity.
  - exact Hcancel.
Defined.

(* ===================================================================== *)
(** ** Further properties: a write followed by the reload *)
(* ===================================================================== *)




